(** * WebSocket chat server (api-demos/websocket-chat/server.js)

    A shallow embedding of the Socket.IO chat server: the two in-memory
    stores ([users], [rooms]), the [Room] class, and the handlers the
    server registers on every socket.  Handlers are written in a small
    state-and-output monad: the state is the server's stores together
    with the Socket.IO room table, the output is the list of events the
    handler emits, each one with the sockets it is delivered to.

    The file has four parts: the model (data, handlers, event loop), the
    vocabulary in which the properties are stated, the properties, proved
    for every engine, and the properties at concrete runs.

    Conventions.
    - A JS string is a [string], read as its UTF-8 bytes: a character
      below 128 is an ASCII character.  [toLowerCase] folds the letters of
      an ASCII string; on every other string it is the function of the
      JavaScript engine, a parameter of the development ([Engine]).
    - A JS [Map] is a [gmap], a JS [Set] a [gset]: iteration order of the
      source (insertion order) is not kept, so the order inside emitted
      arrays ([users-update], [rooms-list]) is that of [elements].
    - An object held in a [Map] and mutated through a local variable
      ([user.room = ...], [roomObj.addUser(...)]) is updated in the map.
    - [Date.now()] and [new Date()] read the clock; every dispatched
      event carries the reading [now] taken while it is handled.  The
      readings one handler takes are not told apart, so no property below
      compares two of them (an [id] with a [timestamp], say).
    - Payload fields are taken to have the types the handlers use them
      at; a ['join'] may omit [room].
    - Socket.IO itself is modelled by its room table only: [socket.join]
      and [socket.leave] edit it, [socket.emit] reaches the socket,
      [socket.to(r)] the sockets in [r] other than the sender, [io.to(r)]
      all sockets in [r].
    - The unused global [messageHistory] is left out. *)

From Stdlib Require Import ZArith Ascii String List Sorted.
From stdpp Require Import gmap strings list fin_maps sorting.

Local Open Scope string_scope.
Local Open Scope list_scope.
Local Open Scope nat_scope.

#[local] Set Warnings "-clear-no-such-hyp".

(** ** Strings *)

(** [String.prototype.toLowerCase] belongs to the JavaScript engine.  On a
    string of ASCII characters it replaces the letters [A]-[Z] by [a]-[z].
    On any other string the result follows the case mappings of the
    engine's Unicode tables, which are no part of the source: that function
    is a parameter here, nothing is assumed about it, and every property
    stated over an [Engine] holds whatever the engine is. *)
Class Engine := unicode_toLowerCase : string → string.

Definition lower_ascii (c : ascii) : ascii :=
  let n := nat_of_ascii c in
  if (65 <=? n)%nat && (n <=? 90)%nat then ascii_of_nat (n + 32) else c.

Fixpoint ascii_toLowerCase (s : string) : string :=
  match s with
  | EmptyString => EmptyString
  | String c t => String (lower_ascii c) (ascii_toLowerCase t)
  end.

(** Strings of ASCII characters. *)
Fixpoint ascii_only (s : string) : bool :=
  match s with
  | EmptyString => true
  | String c t => (nat_of_ascii c <? 128)%nat && ascii_only t
  end.

Definition toLowerCase `{!Engine} (s : string) : string :=
  if ascii_only s then ascii_toLowerCase s else unicode_toLowerCase s.
#[global] Arguments toLowerCase {_} !s /.

(** ** Data model *)

Definition MAX_HISTORY : nat := 100.

Inductive MessageType := type_user | type_system | type_private.

(** The objects sent as ['message'] events.  System notices carry neither
    [id] nor [userId]. *)
Record Message := mkMessage {
  msg_id : option Z;
  msg_user : string;
  msg_userId : option string;
  msg_text : string;
  msg_timestamp : Z;
  msg_type : MessageType
}.

(** The object built by the ['private-message'] handler. *)
Record PrivateMsg := mkPrivateMsg {
  pm_id : Z;
  pm_from : string;
  pm_fromId : string;
  pm_to : string;
  pm_text : string;
  pm_timestamp : Z;
  pm_type : MessageType
}.

Module User.
Record t := mk {
  id : string;
  username : string;
  room : string;
  joinedAt : Z
}.

(** [user.room = key] *)
Definition set_room (key : string) (u : t) : t :=
  {| id := id u; username := username u; room := key; joinedAt := joinedAt u |}.
End User.

Record RoomInfo := mkRoomInfo {
  info_name : string;
  info_userCount : nat;
  info_users : list (option string);
  info_createdAt : Z
}.

Module Room.
Record t := mk {
  name : string;
  users : gset string;
  messages : list Message;
  createdAt : Z
}.

(** [new Room(name)], constructed at clock reading [now]. *)
Definition new (nm : string) (now : Z) : t :=
  {| name := nm; users := ∅; messages := []; createdAt := now |}.

Definition addUser (userId : string) (r : t) : t :=
  {| name := name r; users := users r ∪ {[userId]};
     messages := messages r; createdAt := createdAt r |}.

Definition removeUser (userId : string) (r : t) : t :=
  {| name := name r; users := users r ∖ {[userId]};
     messages := messages r; createdAt := createdAt r |}.

(** [push], then [shift] once when the length went over the bound. *)
Definition addMessage (message : Message) (r : t) : t :=
  let pushed := messages r ++ [message] in
  {| name := name r; users := users r;
     messages := if (MAX_HISTORY <? length pushed)%nat then tail pushed else pushed;
     createdAt := createdAt r |}.

Definition getUserCount (r : t) : nat := size (users r).

Definition getInfo (registry : gmap string User.t) (r : t) : RoomInfo :=
  {| info_name := name r;
     info_userCount := getUserCount r;
     info_users := (λ i, User.username <$> registry !! i) <$> elements (users r);
     info_createdAt := createdAt r |}.
End Room.

(** ** Outbound events *)

Inductive ServerEvent :=
| EvMessage (m : Message)
| EvRoomHistory (ms : list Message)
| EvUsersUpdate (us : list (option User.t)) (count : nat)
| EvRoomsList (infos : list RoomInfo)
| EvUserTyping (username userId : string)
| EvUserStopTyping (userId : string)
| EvPrivateMessage (m : PrivateMsg).

(** How the source addresses an emission. *)
Inductive Target :=
| SocketEmit (sock : string)                (* socket.emit(...) *)
| SocketTo (sock : string) (rm : string)    (* socket.to(rm).emit(...) *)
| IoTo (rm : string).                       (* io.to(rm).emit(...) *)

Record Emission := mkEmission {
  target : Target;
  recipients : gset string;
  event : ServerEvent
}.

(** ** Server state *)

Record State := mkState {
  users : gmap string User.t;           (* const users = new Map() *)
  rooms : gmap string Room.t;           (* const rooms = new Map() *)
  adapter : gmap string (gset string)   (* Socket.IO rooms: name -> socket ids *)
}.

Definition defaultRooms : list string := ["General"; "Random"; "Tech"; "Gaming"].

(** The stores after module initialisation at clock reading [t0]. *)
Definition init `{!Engine} (t0 : Z) : State :=
  {| users := ∅;
     rooms := foldl (λ acc nm, <[toLowerCase nm := Room.new nm t0]> acc) ∅ defaultRooms;
     adapter := ∅ |}.

(** Sockets currently in the Socket.IO room [rm]. *)
Definition sockets_in (s : State) (rm : string) : gset string :=
  default ∅ (adapter s !! rm).

(** Member set of the chat room stored under [key] (empty when absent). *)
Definition room_members (rs : gmap string Room.t) (key : string) : gset string :=
  from_option Room.users ∅ (rs !! key).

Definition members (s : State) (key : string) : gset string :=
  room_members (rooms s) key.

(** Message history of the chat room stored under [key]. *)
Definition history (s : State) (key : string) : list Message :=
  from_option Room.messages [] (rooms s !! key).

(** ** Handlers as state transformers that emit events *)

Definition Handler (A : Type) : Type := State → A * State * list Emission.

Definition ret {A} (a : A) : Handler A := λ s, (a, s, []).

Definition bind {A B} (m : Handler A) (k : A → Handler B) : Handler B :=
  λ s, let r1 := m s in
       let r2 := k r1.1.1 r1.1.2 in
       (r2.1.1, r2.1.2, r1.2 ++ r2.2).

Declare Scope handler_scope.
Delimit Scope handler_scope with H.
Bind Scope handler_scope with Handler.
Notation "x <- m ;; k" := (bind m (λ x, k))
  (at level 100, m at next level, right associativity) : handler_scope.
Notation "m ;;; k" := (bind m (λ _, k))
  (at level 100, right associativity) : handler_scope.
Local Open Scope handler_scope.

Definition final {A} (r : A * State * list Emission) : State := r.1.2.
Definition emitted {A} (r : A * State * list Emission) : list Emission := r.2.

(** *** Store primitives *)

Definition users_get (k : string) : Handler (option User.t) :=
  λ s, (users s !! k, s, []).
Definition users_all : Handler (gmap string User.t) :=
  λ s, (users s, s, []).
Definition users_set (k : string) (u : User.t) : Handler unit :=
  λ s, (tt, {| users := <[k := u]> (users s); rooms := rooms s; adapter := adapter s |}, []).
Definition users_delete (k : string) : Handler unit :=
  λ s, (tt, {| users := delete k (users s); rooms := rooms s; adapter := adapter s |}, []).
(** A field assignment on the object stored under [k]. *)
Definition user_assign (k : string) (f : User.t → User.t) : Handler unit :=
  λ s, (tt, {| users := alter f k (users s); rooms := rooms s; adapter := adapter s |}, []).

Definition rooms_get (k : string) : Handler (option Room.t) :=
  λ s, (rooms s !! k, s, []).
Definition rooms_all : Handler (gmap string Room.t) :=
  λ s, (rooms s, s, []).
Definition rooms_set (k : string) (r : Room.t) : Handler unit :=
  λ s, (tt, {| users := users s; rooms := <[k := r]> (rooms s); adapter := adapter s |}, []).
(** A mutating method call on the room object stored under [k]. *)
Definition room_call (k : string) (f : Room.t → Room.t) : Handler unit :=
  λ s, (tt, {| users := users s; rooms := alter f k (rooms s); adapter := adapter s |}, []).
Definition room_users (k : string) : Handler (gset string) :=
  λ s, (members s k, s, []).
Definition room_messages (k : string) : Handler (list Message) :=
  λ s, (history s k, s, []).

(** *** Socket.IO primitives *)

Definition socket_join (sock rm : string) : Handler unit :=
  λ s, (tt, {| users := users s; rooms := rooms s;
               adapter := <[rm := sockets_in s rm ∪ {[sock]}]> (adapter s) |}, []).
Definition socket_leave (sock rm : string) : Handler unit :=
  λ s, (tt, {| users := users s; rooms := rooms s;
               adapter := <[rm := sockets_in s rm ∖ {[sock]}]> (adapter s) |}, []).
(** What Socket.IO does to a closing socket before ['disconnect'] fires. *)
Definition socket_leave_all (sock : string) : Handler unit :=
  λ s, (tt, {| users := users s; rooms := rooms s;
               adapter := (λ S, S ∖ {[sock]}) <$> adapter s |}, []).

Definition socket_emit (sock : string) (e : ServerEvent) : Handler unit :=
  λ s, (tt, s, [ {| target := SocketEmit sock; recipients := {[sock]}; event := e |} ]).
Definition socket_to (sock rm : string) (e : ServerEvent) : Handler unit :=
  λ s, (tt, s, [ {| target := SocketTo sock rm;
                    recipients := sockets_in s rm ∖ {[sock]}; event := e |} ]).
Definition io_to (rm : string) (e : ServerEvent) : Handler unit :=
  λ s, (tt, s, [ {| target := IoTo rm; recipients := sockets_in s rm; event := e |} ]).

(** *** Payload builders *)

Definition system_message (text : string) (now : Z) : Message :=
  {| msg_id := None; msg_user := "System"; msg_userId := None;
     msg_text := text; msg_timestamp := now; msg_type := type_system |}.

(** [{ users: Array.from(room.users).map(id => users.get(id)), count }] *)
Definition users_update (k : string) : Handler ServerEvent :=
  us <- users_all ;;
  ids <- room_users k ;;
  ret (EvUsersUpdate ((λ i, us !! i) <$> elements ids) (size ids)).

(** [Array.from(rooms.values()).map(r => r.getInfo())] *)
Definition rooms_list : Handler ServerEvent :=
  us <- users_all ;;
  rs <- rooms_all ;;
  ret (EvRoomsList (Room.getInfo us <$> (map_to_list rs).*2)).

(** *** socket.on('join') *)

Definition on_join `{!Engine} (sock : string) (now : Z) (username : string)
    (room_opt : option string) : Handler unit :=
  let room := default "general" room_opt in
  let roomKey := toLowerCase room in
  users_set sock {| User.id := sock; User.username := username;
                    User.room := roomKey; User.joinedAt := now |} ;;;
  socket_join sock roomKey ;;;
  roomObj <- rooms_get roomKey ;;
  (if roomObj is None then rooms_set roomKey (Room.new room now) else ret tt) ;;;
  room_call roomKey (Room.addUser sock) ;;;
  socket_emit sock (EvMessage (system_message
    ("Welcome to " +:+ room +:+ ", " +:+ username +:+ "!") now)) ;;;
  msgs <- room_messages roomKey ;;
  socket_emit sock (EvRoomHistory msgs) ;;;
  socket_to sock roomKey (EvMessage (system_message
    (username +:+ " has joined the room") now)) ;;;
  upd <- users_update roomKey ;;
  io_to roomKey upd ;;;
  lst <- rooms_list ;;
  socket_emit sock lst.

(** *** socket.on('send-message') *)

Definition on_send_message (sock : string) (now : Z) (text : string) : Handler unit :=
  user <- users_get sock ;;
  match user with
  | None => ret tt
  | Some user =>
      let message :=
        {| msg_id := Some now; msg_user := User.username user;
           msg_userId := Some sock; msg_text := text;
           msg_timestamp := now; msg_type := type_user |} in
      room <- rooms_get (User.room user) ;;
      (if room is Some _ then room_call (User.room user) (Room.addMessage message)
       else ret tt) ;;;
      io_to (User.room user) (EvMessage message)
  end.

(** *** socket.on('typing') and socket.on('stop-typing') *)

Definition on_typing (sock : string) : Handler unit :=
  user <- users_get sock ;;
  match user with
  | None => ret tt
  | Some user =>
      socket_to sock (User.room user) (EvUserTyping (User.username user) sock)
  end.

Definition on_stop_typing (sock : string) : Handler unit :=
  user <- users_get sock ;;
  match user with
  | None => ret tt
  | Some user => socket_to sock (User.room user) (EvUserStopTyping sock)
  end.

(** *** socket.on('switch-room') *)

Definition on_switch_room `{!Engine} (sock : string) (now : Z) (room : string) : Handler unit :=
  user <- users_get sock ;;
  match user with
  | None => ret tt
  | Some user =>
      let newRoomKey := toLowerCase room in
      let oldRoom := User.room user in
      socket_leave sock oldRoom ;;;
      oldRoomObj <- rooms_get oldRoom ;;
      (if oldRoomObj is Some _ then
         room_call oldRoom (Room.removeUser sock) ;;;
         socket_to sock oldRoom (EvMessage (system_message
           (User.username user +:+ " has left the room") now)) ;;;
         upd <- users_update oldRoom ;;
         io_to oldRoom upd
       else ret tt) ;;;
      socket_join sock newRoomKey ;;;
      user_assign sock (User.set_room newRoomKey) ;;;
      newRoomObj <- rooms_get newRoomKey ;;
      (if newRoomObj is None then rooms_set newRoomKey (Room.new room now)
       else ret tt) ;;;
      room_call newRoomKey (Room.addUser sock) ;;;
      msgs <- room_messages newRoomKey ;;
      socket_emit sock (EvRoomHistory msgs) ;;;
      socket_to sock newRoomKey (EvMessage (system_message
        (User.username user +:+ " has joined the room") now)) ;;;
      upd <- users_update newRoomKey ;;
      io_to newRoomKey upd
  end.

(** *** socket.on('private-message') *)

Definition on_private_message (sock : string) (now : Z)
    (to toId text : string) : Handler unit :=
  sender <- users_get sock ;;
  match sender with
  | None => ret tt
  | Some sender =>
      let message :=
        {| pm_id := now; pm_from := User.username sender; pm_fromId := sock;
           pm_to := to; pm_text := text; pm_timestamp := now;
           pm_type := type_private |} in
      socket_to sock toId (EvPrivateMessage message) ;;;
      socket_emit sock (EvPrivateMessage message)
  end.

(** *** socket.on('disconnect') *)

Definition on_disconnect (sock : string) (now : Z) : Handler unit :=
  user <- users_get sock ;;
  match user with
  | None => ret tt
  | Some user =>
      room <- rooms_get (User.room user) ;;
      (if room is Some _ then
         room_call (User.room user) (Room.removeUser sock) ;;;
         socket_to sock (User.room user) (EvMessage (system_message
           (User.username user +:+ " has left the room") now)) ;;;
         upd <- users_update (User.room user) ;;
         io_to (User.room user) upd
       else ret tt) ;;;
      users_delete sock
  end.

(** ** Inbound events and the event loop *)

Inductive ClientEvent :=
| Connection                                 (* io.on('connection') *)
| Join (username : string) (room : option string)
| SendMessage (text : string)
| Typing
| StopTyping
| SwitchRoom (room : string)
| PrivateMessage (to toId text : string)
| Disconnect.

(** One event taken off the queue: the socket it arrived on, the clock
    reading while it is handled, and the event. *)
Record Input := mkInput {
  sock : string;
  now : Z;
  ev : ClientEvent
}.

#[global] Instance MessageType_eq_dec : EqDecision MessageType.
Proof. solve_decision. Defined.
#[global] Instance Message_eq_dec : EqDecision Message.
Proof. solve_decision. Defined.
#[global] Instance PrivateMsg_eq_dec : EqDecision PrivateMsg.
Proof. solve_decision. Defined.
#[global] Instance User_eq_dec : EqDecision User.t.
Proof. solve_decision. Defined.
#[global] Instance RoomInfo_eq_dec : EqDecision RoomInfo.
Proof. solve_decision. Defined.
#[global] Instance ServerEvent_eq_dec : EqDecision ServerEvent.
Proof. solve_decision. Defined.
#[global] Instance Target_eq_dec : EqDecision Target.
Proof. solve_decision. Defined.
#[global] Instance Emission_eq_dec : EqDecision Emission.
Proof. solve_decision. Defined.

(** A new socket sits in the Socket.IO room named by its own id; a closing
    socket has left every Socket.IO room when its handler runs. *)
Definition dispatch `{!Engine} (i : Input) : Handler unit :=
  match ev i with
  | Connection => socket_join (sock i) (sock i)
  | Join username room => on_join (sock i) (now i) username room
  | SendMessage text => on_send_message (sock i) (now i) text
  | Typing => on_typing (sock i)
  | StopTyping => on_stop_typing (sock i)
  | SwitchRoom room => on_switch_room (sock i) (now i) room
  | PrivateMessage to toId text => on_private_message (sock i) (now i) to toId text
  | Disconnect => socket_leave_all (sock i) ;;; on_disconnect (sock i) (now i)
  end.

(** The server is single-threaded: events are handled one at a time. *)
Fixpoint run `{!Engine} (inputs : list Input) : Handler unit :=
  match inputs with
  | [] => ret tt
  | i :: rest => dispatch i ;;; run rest
  end.

Definition step `{!Engine} (s : State) (i : Input) : State := final (dispatch i s).
Definition exec `{!Engine} (s : State) (inputs : list Input) : State := final (run inputs s).
Definition trace `{!Engine} (s : State) (inputs : list Input) : list Emission := emitted (run inputs s).

(** States the server can be in: from start-up, any finite sequence of
    inbound events. *)
Definition reachable `{!Engine} (s : State) : Prop :=
  ∃ t0 inputs, s = exec (init t0) inputs.

(** Events delivered to socket [c], in emission order. *)
Definition received (c : string) (out : list Emission) : list ServerEvent :=
  event <$> filter (λ e, c ∈ recipients e) out.

(** ** The HTTP endpoints of the chat server *)

(** The body of [GET /api/rooms]:
    [Array.from(rooms.values()).map(r => r.getInfo())]. *)
Definition api_rooms (s : State) : list RoomInfo :=
  Room.getInfo (users s) <$> (map_to_list (rooms s)).*2.



(** * The REST API demo (second server in the same source file)

    An Express application over two in-memory arrays, [users] and [posts],
    and two counters.  A route handler is a function from the store to the
    new store and the response.  Route parameters and query strings that
    the source passes through [parseInt] are taken after parsing: [None]
    stands for [NaN].  Body fields that the handlers test for truthiness
    are [option string], absent or present.  A [userId], which the
    handlers test for truthiness and then pass through [parseInt], is
    taken as these two operations see it ([IntArg]).  Middleware (helmet,
    cors, morgan, the request logger) does not touch the store and is left
    out. *)

Module Rest.

Record UserRec := mkUser {
  u_id : Z;
  u_name : string;
  u_email : string;
  u_role : string
}.

Record Post := mkPost {
  p_id : Z;
  p_userId : Z;
  p_title : string;
  p_content : string;
  p_createdAt : Z;
  p_updatedAt : option Z
}.

Record Db := mkDb {
  users : list UserRec;
  posts : list Post;
  nextUserId : Z;
  nextPostId : Z
}.

#[global] Instance UserRec_eq_dec : EqDecision UserRec.
Proof. solve_decision. Defined.
#[global] Instance Post_eq_dec : EqDecision Post.
Proof. solve_decision. Defined.

(** The store when the module is loaded at clock reading [t0]. *)
Definition init (t0 : Z) : Db :=
  {| users := [ mkUser 1 "Alice Johnson" "alice@example.com" "admin";
                mkUser 2 "Bob Smith" "bob@example.com" "user";
                mkUser 3 "Charlie Davis" "charlie@example.com" "user" ];
     posts := [ mkPost 1 1 "First Post" "This is the first post" t0 None;
                mkPost 2 2 "Second Post" "This is the second post" t0 None ];
     nextUserId := 4;
     nextPostId := 3 |}.

Inductive Body :=
| BHealth (timestamp : Z)
| BInfo
| BUsers (count : nat) (data : list UserRec)
| BUser (data : UserRec)
| BPosts (count : nat) (data : list Post)
| BPost (data : Post)
| BUserPosts (user : UserRec) (userPosts : list Post) (postCount : nat)
| BError (message : string)
| BNone.

Record Response := mkResponse {
  status : nat;
  body : Body
}.

(** JS truthiness of a string-valued field: absent and [''] are falsy. *)
Definition truthy (v : option string) : bool :=
  match v with
  | Some s => negb (String.eqb s "")
  | None => false
  end.

(** [v || d], and the spread [...(v && {field: v})] over an old value. *)
Definition or_else (v : option string) (d : string) : string :=
  match v with
  | Some s => if String.eqb s "" then d else s
  | None => d
  end.

(** [s.includes(sub)] *)
Definition includes (s sub : string) : bool :=
  match index 0 sub s with
  | Some _ => true
  | None => false
  end.

(** [users.findIndex(u => u.id === id)] together with [users.find(...)];
    nothing is equal to [NaN]. *)
Definition find_user (id : option Z) (us : list UserRec) : option (nat * UserRec) :=
  match id with
  | Some n => list_find (λ u, u_id u = n) us
  | None => None
  end.

Definition find_post (id : option Z) (ps : list Post) : option (nat * Post) :=
  match id with
  | Some n => list_find (λ p, p_id p = n) ps
  | None => None
  end.

(** A value that is tested for truthiness and, when truthy, passed
    through [parseInt]: the query parameter [userId] of [GET /api/posts],
    a string, and the body field [userId] of [POST /api/posts], any JSON
    value.  [Truthy None] is a truthy value that parses to [NaN] (['abc'],
    [true]); [Truthy (Some n)] one that parses to [n] ([7], ['7'], [7.9],
    and also [1e21], which parses to [1]). *)
Inductive IntArg :=
| Falsy
| Truthy (parsed : option Z).

(** [GET /api/users] *)
Definition get_users `{!Engine} (role search : option string) (db : Db) : Response :=
  let filteredUsers := users db in
  let filteredUsers :=
    if truthy role
    then filter (λ u, u_role u = default "" role) filteredUsers
    else filteredUsers in
  let filteredUsers :=
    if truthy search
    then filter (λ u,
           Is_true (includes (toLowerCase (u_name u)) (toLowerCase (default "" search))
                    || includes (toLowerCase (u_email u)) (toLowerCase (default "" search))))
           filteredUsers
    else filteredUsers in
  mkResponse 200 (BUsers (length filteredUsers) filteredUsers).

(** [GET /api/users/:id] *)
Definition get_user (id : option Z) (db : Db) : Response :=
  match find_user id (users db) with
  | None => mkResponse 404 (BError "User not found")
  | Some (_, user) => mkResponse 200 (BUser user)
  end.

(** [POST /api/users] *)
Definition create_user (name email role : option string) (db : Db) : Db * Response :=
  if negb (truthy name) || negb (truthy email)
  then (db, mkResponse 400 (BError "Name and email are required"))
  else
    let newUser := {| u_id := nextUserId db; u_name := default "" name;
                      u_email := default "" email; u_role := or_else role "user" |} in
    ({| users := users db ++ [newUser]; posts := posts db;
        nextUserId := (nextUserId db + 1)%Z; nextPostId := nextPostId db |},
     mkResponse 201 (BUser newUser)).

(** [PUT /api/users/:id] *)
Definition update_user (id : option Z) (name email role : option string)
    (db : Db) : Db * Response :=
  match find_user id (users db) with
  | None => (db, mkResponse 404 (BError "User not found"))
  | Some (userIndex, old) =>
      let updated := {| u_id := u_id old; u_name := or_else name (u_name old);
                        u_email := or_else email (u_email old);
                        u_role := or_else role (u_role old) |} in
      ({| users := <[userIndex := updated]> (users db); posts := posts db;
          nextUserId := nextUserId db; nextPostId := nextPostId db |},
       mkResponse 200 (BUser updated))
  end.

(** [DELETE /api/users/:id] *)
Definition delete_user (id : option Z) (db : Db) : Db * Response :=
  match find_user id (users db) with
  | None => (db, mkResponse 404 (BError "User not found"))
  | Some (userIndex, _) =>
      ({| users := delete userIndex (users db); posts := posts db;
          nextUserId := nextUserId db; nextPostId := nextPostId db |},
       mkResponse 204 BNone)
  end.

(** [GET /api/posts] *)
Definition get_posts (userId : IntArg) (db : Db) : Response :=
  let filteredPosts :=
    match userId with
    | Falsy => posts db
    | Truthy parsed => filter (λ p, Some (p_userId p) = parsed) (posts db)
    end in
  mkResponse 200 (BPosts (length filteredPosts) filteredPosts).

(** [GET /api/posts/:id] *)
Definition get_post (id : option Z) (db : Db) : Response :=
  match find_post id (posts db) with
  | None => mkResponse 404 (BError "Post not found")
  | Some (_, post) => mkResponse 200 (BPost post)
  end.

(** [POST /api/posts].  The author is looked up under [parseInt(userId)],
    and that number is what the new post stores. *)
Definition create_post (now : Z) (userId : IntArg) (title content : option string)
    (db : Db) : Db * Response :=
  match userId with
  | Falsy => (db, mkResponse 400 (BError "userId, title, and content are required"))
  | Truthy parsed =>
      if negb (truthy title) || negb (truthy content)
      then (db, mkResponse 400 (BError "userId, title, and content are required"))
      else
        match parsed, find_user parsed (users db) with
        | Some n, Some _ =>
            let newPost := {| p_id := nextPostId db; p_userId := n;
                              p_title := default "" title; p_content := default "" content;
                              p_createdAt := now; p_updatedAt := None |} in
            ({| users := users db; posts := posts db ++ [newPost];
                nextUserId := nextUserId db; nextPostId := (nextPostId db + 1)%Z |},
             mkResponse 201 (BPost newPost))
        | _, _ => (db, mkResponse 400 (BError "Invalid userId"))
        end
  end.

(** [PUT /api/posts/:id] *)
Definition update_post (now : Z) (id : option Z) (title content : option string)
    (db : Db) : Db * Response :=
  match find_post id (posts db) with
  | None => (db, mkResponse 404 (BError "Post not found"))
  | Some (postIndex, old) =>
      let updated := {| p_id := p_id old; p_userId := p_userId old;
                        p_title := or_else title (p_title old);
                        p_content := or_else content (p_content old);
                        p_createdAt := p_createdAt old; p_updatedAt := Some now |} in
      ({| users := users db; posts := <[postIndex := updated]> (posts db);
          nextUserId := nextUserId db; nextPostId := nextPostId db |},
       mkResponse 200 (BPost updated))
  end.

(** [DELETE /api/posts/:id] *)
Definition delete_post (id : option Z) (db : Db) : Db * Response :=
  match find_post id (posts db) with
  | None => (db, mkResponse 404 (BError "Post not found"))
  | Some (postIndex, _) =>
      ({| users := users db; posts := delete postIndex (posts db);
          nextUserId := nextUserId db; nextPostId := nextPostId db |},
       mkResponse 204 BNone)
  end.

(** [GET /api/users/:id/posts] *)
Definition get_user_posts (id : option Z) (db : Db) : Response :=
  match find_user id (users db) with
  | None => mkResponse 404 (BError "User not found")
  | Some (_, user) =>
      let userPosts :=
        filter (λ p, Some (p_userId p) = id) (posts db) in
      mkResponse 200 (BUserPosts user userPosts (length userPosts))
  end.

Inductive Request :=
| Health
| ApiInfo
| GetUsers (role search : option string)
| GetUser (id : option Z)
| CreateUser (name email role : option string)
| UpdateUser (id : option Z) (name email role : option string)
| DeleteUser (id : option Z)
| GetPosts (userId : IntArg)
| GetPost (id : option Z)
| CreatePost (userId : IntArg) (title content : option string)
| UpdatePost (id : option Z) (title content : option string)
| DeletePost (id : option Z)
| GetUserPosts (id : option Z)
| OtherRoute.

(** The router: one request, handled at clock reading [now]. *)
Definition handle `{!Engine} (now : Z) (r : Request) (db : Db) : Db * Response :=
  match r with
  | Health => (db, mkResponse 200 (BHealth now))
  | ApiInfo => (db, mkResponse 200 BInfo)
  | GetUsers role search => (db, get_users role search db)
  | GetUser id => (db, get_user id db)
  | CreateUser name email role => create_user name email role db
  | UpdateUser id name email role => update_user id name email role db
  | DeleteUser id => delete_user id db
  | GetPosts userId => (db, get_posts userId db)
  | GetPost id => (db, get_post id db)
  | CreatePost userId title content => create_post now userId title content db
  | UpdatePost id title content => update_post now id title content db
  | DeletePost id => delete_post id db
  | GetUserPosts id => (db, get_user_posts id db)
  | OtherRoute => (db, mkResponse 404 (BError "Route not found"))
  end.

(** Requests are served one after the other. *)
Definition serve `{!Engine} (db : Db) (reqs : list (Z * Request)) : Db :=
  foldl (λ d r, (handle r.1 r.2 d).1) db reqs.

Definition reachable `{!Engine} (db : Db) : Prop :=
  ∃ t0 reqs, db = serve (init t0) reqs.

(** Ids are pairwise distinct and below the counter they were drawn from. *)
Definition ids_fresh (db : Db) : Prop :=
  NoDup (u_id <$> users db) ∧
  Forall (λ u, (u_id u < nextUserId db)%Z) (users db) ∧
  NoDup (p_id <$> posts db) ∧
  Forall (λ p, (p_id p < nextPostId db)%Z) (posts db).

End Rest.

(** * Vocabulary of the properties *)

(** ** The bounded history buffer *)

(** Appending a sequence of messages to a room, in arrival order. *)
Definition append_all (ms : list Message) (r : Room.t) : Room.t :=
  foldl (λ acc m, Room.addMessage m acc) r ms.

(** The last [MAX_HISTORY] elements of a list. *)
Definition window (l : list Message) : list Message :=
  drop (length l - MAX_HISTORY) l.

(** What handling [i] in state [s] passes to [addMessage] of the room
    stored under [key]: the message built by ['send-message'] when the
    sender is registered with that room and the room exists. *)
Definition appended_by (key : string) (s : State) (i : Input) : list Message :=
  match ev i, users s !! sock i, rooms s !! key with
  | SendMessage text, Some u, Some _ =>
      if decide (User.room u = key)
      then [ mkMessage (Some (now i)) (User.username u) (Some (sock i)) text
               (now i) type_user ]
      else []
  | _, _, _ => []
  end.

(** All the messages a run appends to that room, in arrival order. *)
Fixpoint appended `{!Engine} (key : string) (s : State) (inputs : list Input) : list Message :=
  match inputs with
  | [] => []
  | i :: rest => appended_by key s i ++ appended key (step s i) rest
  end.

(** ** Effects on the stores *)

(** [if (!rooms.get(key)) rooms.set(key, new Room(nm))] *)
Definition ensure_room (key nm : string) (now : Z)
    (rs : gmap string Room.t) : gmap string Room.t :=
  match rs !! key with
  | None => <[key := Room.new nm now]> rs
  | Some _ => rs
  end.

(** The events whose handler starts with [if (!user) return]. *)
Definition needs_user (e : ClientEvent) : bool :=
  match e with
  | SendMessage _ | Typing | StopTyping | SwitchRoom _ | PrivateMessage _ _ _ => true
  | Connection | Join _ _ | Disconnect => false
  end.

(** ** Registry and rooms *)

(** A registered socket is a member of its current room. *)
Definition registered_is_member (s : State) : Prop :=
  ∀ c u, users s !! c = Some u →
    User.id u = c ∧ c ∈ members s (User.room u).

(** A member of a room is registered with that room as its current room. *)
Definition members_registered (s : State) : Prop :=
  ∀ k c, c ∈ members s k → ∃ u, users s !! c = Some u ∧ User.room u = k.

(** Every member of a room is registered with that room as its current
    room, and nobody is a member of two rooms. *)
Definition consistent (s : State) : Prop :=
  (∀ k c, c ∈ members s k → ∃ u, users s !! c = Some u ∧ User.room u = k) ∧
  (∀ k1 k2 c, c ∈ members s k1 → c ∈ members s k2 → k1 = k2).

(** An event that is not a ['join'] on a socket that is already in
    [users]. *)
Definition first_join (s : State) (i : Input) : Prop :=
  match ev i with
  | Join _ _ => users s !! sock i = None
  | _ => True
  end.

(** A run in which no socket joins while it is registered. *)
Fixpoint first_joins_only `{!Engine} (s : State) (inputs : list Input) : Prop :=
  match inputs with
  | [] => True
  | i :: rest => first_join s i ∧ first_joins_only (step s i) rest
  end.

(** ** Room keys *)

Definition is_upper (a : ascii) : bool :=
  (65 <=? nat_of_ascii a) && (nat_of_ascii a <=? 90).

(** Equal characters, or the two cases of one ASCII letter. *)
Definition same_letter (a b : ascii) : bool :=
  Ascii.eqb a b
  || (is_upper a && (nat_of_ascii b =? nat_of_ascii a + 32))
  || (is_upper b && (nat_of_ascii a =? nat_of_ascii b + 32)).

(** Room names that are equal up to the case of their ASCII letters. *)
Fixpoint differ_only_in_case (s1 s2 : string) : bool :=
  match s1, s2 with
  | EmptyString, EmptyString => true
  | String a r1, String b r2 => same_letter a b && differ_only_in_case r1 r2
  | _, _ => false
  end.

(** Every room is stored under the lower-cased form of its display name. *)
Definition keys_lowercase `{!Engine} (rs : gmap string Room.t) : Prop :=
  ∀ k R, rs !! k = Some R → k = toLowerCase (Room.name R).

(** The default room is there from start-up on, under its display name. *)
Definition has_general (rs : gmap string Room.t) : Prop :=
  ∃ R, rs !! "general" = Some R ∧ Room.name R = "General".

(** ** Reading the emitted events *)

Definition is_stop_typing (e : ServerEvent) : bool :=
  match e with EvUserStopTyping _ => true | _ => false end.

Definition is_user_typing (e : ServerEvent) : bool :=
  match e with EvUserTyping _ _ => true | _ => false end.

(** The id of the message a handler creates, read off what it emits: a
    user message is the one broadcast with [io.to(...)], a private message
    the one echoed with [socket.emit(...)]. *)
Definition created_id (em : Emission) : option Z :=
  match target em, event em with
  | IoTo _, EvMessage m => msg_id m
  | SocketEmit _, EvPrivateMessage m => Some (pm_id m)
  | _, _ => None
  end.

Definition created_ids (out : list Emission) : list Z := omap created_id out.

(** ** Example states and runs *)

(** One socket connected, nobody joined. *)
Definition one_connected `{!Engine} : State := exec (init 0) [ mkInput "a" 1 Connection ].

(** One socket connected and joined as alice. *)
Definition alice_joined `{!Engine} : State :=
  exec (init 0) [ mkInput "a" 1 Connection; mkInput "a" 3 (Join "alice" (Some "General")) ].

(** Both sockets in the default room, [a] registered as alice. *)
Definition two_in_general `{!Engine} : State :=
  exec (init 0)
    [ mkInput "a" 1 Connection; mkInput "b" 2 Connection;
      mkInput "a" 3 (Join "alice" None); mkInput "b" 4 (Join "bob" None) ].

(** Two sockets in the default room; the first one starts typing and then
    nothing else arrives. *)
Definition typing_run : list Input :=
  [ mkInput "a" 1 Connection; mkInput "b" 2 Connection;
    mkInput "a" 3 (Join "alice" None); mkInput "b" 4 (Join "bob" None);
    mkInput "a" 5 Typing ].

(** Two messages sent in the same millisecond. *)
Definition same_tick : list Input :=
  [ mkInput "a" 10 (SendMessage "one"); mkInput "a" 10 (SendMessage "two") ].

(** A socket joins 'General', then joins 'Random' without leaving. *)
Definition rejoin_run : list Input :=
  [ mkInput "a" 1 Connection;
    mkInput "a" 3 (Join "alice" (Some "General"));
    mkInput "a" 9 (Join "alice" (Some "Random")) ].

(** ** States reached without a second join *)

(** States reached from start-up by a run in which no socket joins while
    it is registered. *)
Definition reachable_first_joins `{!Engine} (s : State) : Prop :=
  ∃ t0 inputs, first_joins_only (init t0) inputs ∧ s = exec (init t0) inputs.

(** Chat-room membership implies Socket.IO room membership. *)
Definition members_subscribed (s : State) : Prop :=
  ∀ k c, c ∈ members s k → c ∈ sockets_in s k.

(** A socket in a Socket.IO room is a member of the chat room of that
    name, unless the room is the one named by its own id. *)
Definition subscribed_members (s : State) : Prop :=
  ∀ k c, c ∈ sockets_in s k → k = c ∨ c ∈ members s k.

(** The state in the middle of ['switch-room'], after
    [socket.leave(oldRoom)] and [oldRoomObj.removeUser(socket.id)]. *)
Definition after_leave (s : State) (c old : string) : State :=
  {| users := users s;
     rooms := alter (Room.removeUser c) old (rooms s);
     adapter := <[old := sockets_in s old ∖ {[c]}]> (adapter s) |}.

(** ** Ids handed out by the REST API *)

(** The ids of the users created while [reqs] are served from [db], in
    the order of the requests: the [id] in the body of every answer to
    [POST /api/users] that carries a user. *)
Fixpoint user_ids_given `{!Engine} (db : Rest.Db) (reqs : list (Z * Rest.Request)) : list Z :=
  match reqs with
  | [] => []
  | r :: rest =>
      let a := Rest.handle r.1 r.2 db in
      match r.2, Rest.body a.2 with
      | Rest.CreateUser _ _ _, Rest.BUser u => Rest.u_id u :: user_ids_given a.1 rest
      | _, _ => user_ids_given a.1 rest
      end
  end.

(** The same for [POST /api/posts]. *)
Fixpoint post_ids_given `{!Engine} (db : Rest.Db) (reqs : list (Z * Rest.Request)) : list Z :=
  match reqs with
  | [] => []
  | r :: rest =>
      let a := Rest.handle r.1 r.2 db in
      match r.2, Rest.body a.2 with
      | Rest.CreatePost _ _ _, Rest.BPost q => Rest.p_id q :: post_ids_given a.1 rest
      | _, _ => post_ids_given a.1 rest
      end
  end.

(** ** Tactics *)

(** Walk through a literal list of emissions, dismissing each element by
    computation on a hypothesis about it. *)
Ltac scan_emissions Hin Hcond :=
  repeat (apply elem_of_cons in Hin as [->|Hin]; [by cbn in Hcond|]);
  by apply elem_of_nil in Hin.

(** Reduce a handler applied to a state, splitting on every store lookup
    it branches on. *)
Ltac open_handler Hin := cbn in Hin; repeat (case_match; cbn in Hin).

(** * Properties *)

Section properties.
Context {engine : Engine}.

(** ** The bounded history buffer *)

Lemma tail_drop {A} (l : list A) : tail l = drop 1 l.
Proof. by destruct l. Qed.

Lemma addMessage_messages m r :
  length (Room.messages r) ≤ MAX_HISTORY →
  Room.messages (Room.addMessage m r) =
    drop (length (Room.messages r ++ [m]) - MAX_HISTORY) (Room.messages r ++ [m]).
Proof.
  intros Hlen. unfold Room.addMessage; cbn [Room.messages].
  assert (Hl : length (Room.messages r ++ [m]) = S (length (Room.messages r)))
    by (rewrite length_app; cbn; lia).
  destruct (Nat.ltb_spec MAX_HISTORY (length (Room.messages r ++ [m]))) as [Hlt|Hle].
  - rewrite tail_drop. f_equal. lia.
  - replace (length (Room.messages r ++ [m]) - MAX_HISTORY) with 0 by lia. done.
Qed.

Lemma addMessage_bounded m r :
  length (Room.messages r) ≤ MAX_HISTORY →
  length (Room.messages (Room.addMessage m r)) ≤ MAX_HISTORY.
Proof.
  intros Hlen. rewrite addMessage_messages by done.
  rewrite length_drop. lia.
Qed.

(** The buffer holds the last [MAX_HISTORY] of everything it has seen,
    provided it started within the bound. *)
Lemma append_all_window ms : ∀ r,
  length (Room.messages r) ≤ MAX_HISTORY →
  Room.messages (append_all ms r) =
    drop (length (Room.messages r ++ ms) - MAX_HISTORY) (Room.messages r ++ ms).
Proof.
  induction ms as [|m ms IH]; intros r Hlen.
  - cbn [append_all foldl]. rewrite app_nil_r.
    replace (length (Room.messages r) - MAX_HISTORY) with 0 by lia. done.
  - change (append_all (m :: ms) r) with (append_all ms (Room.addMessage m r)).
    rewrite IH by (by apply addMessage_bounded).
    rewrite addMessage_messages by done.
    set (h := Room.messages r) in *.
    replace (h ++ m :: ms) with ((h ++ [m]) ++ ms) by (by rewrite <- app_assoc).
    set (l := h ++ [m]).
    assert (Hl : length l = S (length h)) by (subst l; rewrite length_app; cbn; lia).
    set (k := length l - MAX_HISTORY).
    assert (Hk : k ≤ length l) by lia.
    rewrite <- (drop_app_le l ms k) by done.
    rewrite drop_drop. f_equal.
    rewrite length_drop, !length_app. subst k. lia.
Qed.

(** ** What each handler does to the stores *)

Lemma alter_absent {V} (f : V → V) (k : string) (m : gmap string V) :
  m !! k = None → alter f k m = m.
Proof.
  intros Hk. apply map_eq; intros j. rewrite lookup_alter.
  case_decide; subst; by rewrite ?Hk.
Qed.

Section handler_effects.
Variables (c : string) (t : Z) (s : State).

Lemma join_users nm rm :
  users (final (on_join c t nm rm s)) =
    <[c := User.mk c nm (toLowerCase (default "general" rm)) t]> (users s).
Proof. unfold on_join, final; cbn. by destruct (rooms s !! _). Qed.

Lemma join_rooms nm rm :
  rooms (final (on_join c t nm rm s)) =
    alter (Room.addUser c) (toLowerCase (default "general" rm))
      (ensure_room (toLowerCase (default "general" rm)) (default "general" rm) t (rooms s)).
Proof. unfold on_join, final, ensure_room; cbn. by destruct (rooms s !! _). Qed.

Lemma send_users text :
  users (final (on_send_message c t text s)) = users s.
Proof.
  unfold on_send_message, final; cbn.
  destruct (users s !! c) as [u|]; cbn; [|done]. by destruct (rooms s !! _).
Qed.

Lemma send_rooms text u :
  users s !! c = Some u →
  rooms (final (on_send_message c t text s)) =
    alter (Room.addMessage (mkMessage (Some t) (User.username u) (Some c) text t type_user))
      (User.room u) (rooms s).
Proof.
  intros Hu. unfold on_send_message, final; cbn. rewrite Hu; cbn.
  destruct (rooms s !! _) eqn:Hr; cbn; [done|]. by rewrite alter_absent.
Qed.

Lemma switch_users rm u :
  users s !! c = Some u →
  users (final (on_switch_room c t rm s)) =
    alter (User.set_room (toLowerCase rm)) c (users s).
Proof.
  intros Hu. unfold on_switch_room, final; cbn. rewrite Hu; cbn.
  destruct (rooms s !! User.room u); cbn;
    by destruct (_ !! toLowerCase rm).
Qed.

Lemma switch_rooms rm u :
  users s !! c = Some u →
  rooms (final (on_switch_room c t rm s)) =
    alter (Room.addUser c) (toLowerCase rm)
      (ensure_room (toLowerCase rm) rm t
         (alter (Room.removeUser c) (User.room u) (rooms s))).
Proof.
  intros Hu. unfold on_switch_room, final, ensure_room; cbn. rewrite Hu; cbn.
  destruct (rooms s !! User.room u) eqn:Hold; cbn.
  - by destruct (_ !! toLowerCase rm).
  - rewrite (alter_absent _ _ _ Hold). by destruct (_ !! toLowerCase rm).
Qed.

Lemma disconnect_users u :
  users s !! c = Some u →
  users (final (on_disconnect c t s)) = delete c (users s).
Proof.
  intros Hu. unfold on_disconnect, final; cbn. rewrite Hu; cbn.
  by destruct (rooms s !! User.room u).
Qed.

Lemma disconnect_rooms u :
  users s !! c = Some u →
  rooms (final (on_disconnect c t s)) =
    alter (Room.removeUser c) (User.room u) (rooms s).
Proof.
  intros Hu. unfold on_disconnect, final; cbn. rewrite Hu; cbn.
  destruct (rooms s !! User.room u) eqn:Hr; cbn; [done|]. by rewrite alter_absent.
Qed.
End handler_effects.

(** Reading [users] first, then going on with what was read. *)
Lemma bind_users_get {B} (c : string) (k : option User.t → Handler B) (s : State) :
  bind (users_get c) k s = k (users s !! c) s.
Proof.
  unfold bind, users_get. cbn [fst snd app].
  by destruct (k (users s !! c) s) as [[b s'] o].
Qed.

(** ** The event loop *)

Lemma exec_nil s : exec s [] = s.
Proof. done. Qed.

Lemma exec_cons s i l : exec s (i :: l) = exec (step s i) l.
Proof. done. Qed.

Lemma trace_cons s i l :
  trace s (i :: l) = emitted (dispatch i s) ++ trace (step s i) l.
Proof. done. Qed.

Lemma exec_app s l1 l2 : exec s (l1 ++ l2) = exec (exec s l1) l2.
Proof.
  revert s; induction l1 as [|i l1 IH]; intros s; [done|].
  by rewrite <- app_comm_cons, !exec_cons, IH.
Qed.

Lemma trace_app s l1 l2 :
  trace s (l1 ++ l2) = trace s l1 ++ trace (exec s l1) l2.
Proof.
  revert s; induction l1 as [|i l1 IH]; intros s; [done|].
  by rewrite <- app_comm_cons, !trace_cons, exec_cons, IH, app_assoc.
Qed.

(** Invariants are proved once for start-up and once per event. *)
Lemma exec_invariant (P : State → Prop) :
  (∀ s i, P s → P (step s i)) →
  ∀ l s, P s → P (exec s l).
Proof.
  intros Hstep l; induction l as [|i l IH]; intros s Hs; [done|].
  rewrite exec_cons. by apply IH, Hstep.
Qed.

Lemma reachable_invariant (P : State → Prop) :
  (∀ t0, P (init t0)) →
  (∀ s i, P s → P (step s i)) →
  ∀ s, reachable s → P s.
Proof.
  intros Hinit Hstep s (t0 & l & ->). by apply exec_invariant.
Qed.

Lemma reachable_init t0 : reachable (init t0).
Proof. by exists t0, []. Qed.

Lemma reachable_exec s l : reachable s → reachable (exec s l).
Proof. intros (t0 & l0 & ->). exists t0, (l0 ++ l). by rewrite exec_app. Qed.

(** The stores after one event, by cases on the event. *)
Lemma step_users s i :
  users (step s i) =
    match ev i with
    | Join nm rm =>
        <[sock i := User.mk (sock i) nm (toLowerCase (default "general" rm)) (now i)]> (users s)
    | SwitchRoom rm => alter (User.set_room (toLowerCase rm)) (sock i) (users s)
    | Disconnect => delete (sock i) (users s)
    | _ => users s
    end.
Proof.
  unfold step, dispatch. destruct (ev i) eqn:E.
  - done.
  - apply join_users.
  - apply send_users.
  - unfold on_typing, final; cbn. by destruct (users s !! _).
  - unfold on_stop_typing, final; cbn. by destruct (users s !! _).
  - destruct (users s !! sock i) as [u|] eqn:Hu.
    + by apply switch_users with u.
    + rewrite alter_absent by done.
      unfold on_switch_room, final; cbn. by rewrite Hu.
  - unfold on_private_message, final; cbn. by destruct (users s !! _).
  - destruct (users s !! sock i) as [u|] eqn:Hu.
    + unfold final; cbn. unfold on_disconnect; cbn. rewrite Hu; cbn.
      by destruct (rooms s !! _).
    + rewrite delete_id by done.
      unfold final; cbn. unfold on_disconnect; cbn. by rewrite Hu.
Qed.

Lemma step_rooms s i :
  rooms (step s i) =
    match ev i, users s !! sock i with
    | Join nm rm, _ =>
        alter (Room.addUser (sock i)) (toLowerCase (default "general" rm))
          (ensure_room (toLowerCase (default "general" rm)) (default "general" rm)
             (now i) (rooms s))
    | SendMessage text, Some u =>
        alter (Room.addMessage
                 (mkMessage (Some (now i)) (User.username u) (Some (sock i)) text
                    (now i) type_user))
          (User.room u) (rooms s)
    | SwitchRoom rm, Some u =>
        alter (Room.addUser (sock i)) (toLowerCase rm)
          (ensure_room (toLowerCase rm) rm (now i)
             (alter (Room.removeUser (sock i)) (User.room u) (rooms s)))
    | Disconnect, Some u => alter (Room.removeUser (sock i)) (User.room u) (rooms s)
    | _, _ => rooms s
    end.
Proof.
  unfold step, dispatch. destruct (ev i) eqn:E.
  - by destruct (users s !! sock i).
  - apply join_rooms.
  - destruct (users s !! sock i) as [u|] eqn:Hu.
    + by apply send_rooms.
    + unfold on_send_message, final; cbn. by rewrite Hu.
  - unfold on_typing, final; cbn. by destruct (users s !! sock i).
  - unfold on_stop_typing, final; cbn. by destruct (users s !! sock i).
  - destruct (users s !! sock i) as [u|] eqn:Hu.
    + by apply switch_rooms.
    + unfold on_switch_room, final; cbn. by rewrite Hu.
  - unfold on_private_message, final; cbn. by destruct (users s !! sock i).
  - destruct (users s !! sock i) as [u|] eqn:Hu.
    + unfold final; cbn. unfold on_disconnect; cbn. rewrite Hu; cbn.
      destruct (rooms s !! _) eqn:Hr; cbn; [done|]. by rewrite alter_absent.
    + unfold final; cbn. unfold on_disconnect; cbn. by rewrite Hu.
Qed.

(** ** Membership after each mutation of [rooms] *)

Section membership.
Variables (rs : gmap string Room.t) (a k k' c : string).

Lemma members_addUser :
  c ∈ room_members (alter (Room.addUser a) k rs) k' ↔
    c ∈ room_members rs k' ∨ (k = k' ∧ c = a ∧ is_Some (rs !! k)).
Proof.
  unfold room_members. rewrite lookup_alter. case_decide as Hk.
  - subst k'. destruct (rs !! k) as [R|]; cbn.
    + rewrite elem_of_union, elem_of_singleton. naive_solver.
    + split; [set_solver|]. intros [?|(_ & _ & [? ?])]; [set_solver|done].
  - naive_solver.
Qed.

Lemma members_removeUser :
  c ∈ room_members (alter (Room.removeUser a) k rs) k' ↔
    c ∈ room_members rs k' ∧ ¬ (k = k' ∧ c = a).
Proof.
  unfold room_members. rewrite lookup_alter. case_decide as Hk.
  - subst k'. destruct (rs !! k) as [R|]; cbn.
    + rewrite elem_of_difference, elem_of_singleton. naive_solver.
    + set_solver.
  - naive_solver.
Qed.

Lemma members_addMessage m :
  room_members (alter (Room.addMessage m) k rs) k' = room_members rs k'.
Proof.
  unfold room_members. rewrite lookup_alter. case_decide as Hk; [subst k'|done].
  by destruct (rs !! k).
Qed.

Lemma members_ensure_room nm t :
  room_members (ensure_room k nm t rs) k' = room_members rs k'.
Proof.
  unfold room_members, ensure_room. destruct (rs !! k) eqn:Hk; [done|].
  rewrite lookup_insert. case_decide as Hk'; [subst k'; by rewrite Hk|done].
Qed.

Lemma ensure_room_is_Some nm t : is_Some (ensure_room k nm t rs !! k).
Proof.
  unfold ensure_room. destruct (rs !! k) eqn:Hk; [by rewrite Hk|].
  by rewrite lookup_insert_eq.
Qed.

Lemma ensure_room_mono nm t : is_Some (rs !! k') → is_Some (ensure_room k nm t rs !! k').
Proof.
  unfold ensure_room. destruct (rs !! k) eqn:Hk; [done|].
  rewrite lookup_insert. case_decide; [by eauto|done].
Qed.
End membership.

(** Who is in which room after one event. *)
Lemma step_members s i k c :
  c ∈ members (step s i) k ↔
    match ev i, users s !! sock i with
    | Join _ rm, _ =>
        c ∈ members s k ∨ (k = toLowerCase (default "general" rm) ∧ c = sock i)
    | SwitchRoom rm, Some u =>
        (c ∈ members s k ∧ ¬ (User.room u = k ∧ c = sock i))
        ∨ (k = toLowerCase rm ∧ c = sock i)
    | Disconnect, Some u =>
        c ∈ members s k ∧ ¬ (User.room u = k ∧ c = sock i)
    | _, _ => c ∈ members s k
    end.
Proof.
  unfold members. rewrite step_rooms.
  destruct (ev i) eqn:E; destruct (users s !! sock i) as [u|] eqn:Hu; try done.
  - rewrite members_addUser, members_ensure_room.
    pose proof (ensure_room_is_Some (rooms s) (toLowerCase (default "general" room))
                  (default "general" room) (now i)). naive_solver.
  - rewrite members_addUser, members_ensure_room.
    pose proof (ensure_room_is_Some (rooms s) (toLowerCase (default "general" room))
                  (default "general" room) (now i)). naive_solver.
  - by rewrite members_addMessage.
  - rewrite members_addUser, members_ensure_room, members_removeUser.
    pose proof (ensure_room_is_Some (alter (Room.removeUser (sock i)) (User.room u) (rooms s))
                  (toLowerCase room) room (now i)). naive_solver.
  - by rewrite members_removeUser.
Qed.

(** Rooms are created, never deleted. *)
Lemma step_rooms_mono s i k : is_Some (rooms s !! k) → is_Some (rooms (step s i) !! k).
Proof.
  intros Hk. rewrite step_rooms.
  destruct (ev i); destruct (users s !! sock i) as [u|]; try done;
    rewrite ?lookup_alter_is_Some; try apply ensure_room_mono;
    by rewrite ?lookup_alter_is_Some.
Qed.

(** ** The history along a run *)

Lemma window_short (l : list Message) : length l ≤ MAX_HISTORY → window l = l.
Proof.
  intros Hl. unfold window. by replace (length l - MAX_HISTORY) with 0 by lia.
Qed.

Lemma window_length (l : list Message) : length (window l) = min MAX_HISTORY (length l).
Proof. unfold window. rewrite length_drop. lia. Qed.

(** Sliding the window twice is sliding it once. *)
Lemma window_app (l b : list Message) : window (window l ++ b) = window (l ++ b).
Proof.
  unfold window at 1 3. rewrite length_app, window_length. unfold window.
  set (k := length l - MAX_HISTORY).
  assert (Hk : k ≤ length l) by lia.
  rewrite <- (drop_app_le l b k) by done.
  rewrite drop_drop. f_equal. rewrite length_app. subst k. lia.
Qed.

Section history_of_a_room.
Variable key : string.

Lemma history_alter_users (f : Room.t → Room.t) (k : string) (rs : gmap string Room.t) :
  (∀ R, Room.messages (f R) = Room.messages R) →
  from_option Room.messages [] (alter f k rs !! key) =
  from_option Room.messages [] (rs !! key).
Proof.
  intros Hf. rewrite lookup_alter. case_decide as Hk; [subst k|done].
  destruct (rs !! key); cbn; [apply Hf|done].
Qed.

Lemma history_ensure_room (k nm : string) (t : Z) (rs : gmap string Room.t) :
  from_option Room.messages [] (ensure_room k nm t rs !! key) =
  from_option Room.messages [] (rs !! key).
Proof.
  unfold ensure_room. destruct (rs !! k) eqn:Hk; [done|].
  rewrite lookup_insert. case_decide as Hk'; [subst k; by rewrite Hk|done].
Qed.

(** One event slides the window over what it appends. *)
Lemma step_history s i :
  length (history s key) ≤ MAX_HISTORY →
  history (step s i) key = window (history s key ++ appended_by key s i).
Proof.
  intros Hlen. unfold history, appended_by in *. rewrite step_rooms.
  destruct (ev i) eqn:E; destruct (users s !! sock i) as [u|] eqn:Hu;
    rewrite ?history_alter_users, ?history_ensure_room, ?history_alter_users
      by (by intros []);
    try (destruct (rooms s !! key); rewrite app_nil_r, window_short; done).
  rewrite lookup_alter. case_decide as Hk.
  - rewrite Hk. destruct (rooms s !! key) as [R|];
      cbn [fmap option_fmap option_map from_option] in *;
      [|by rewrite window_short].
    rewrite ?decide_True by done. by rewrite addMessage_messages.
  - destruct (rooms s !! key) as [R|];
      cbn [from_option] in *; [|by rewrite window_short].
    rewrite ?decide_False by done. rewrite app_nil_r, window_short; done.
Qed.

Lemma exec_history inputs : ∀ s,
  length (history s key) ≤ MAX_HISTORY →
  history (exec s inputs) key = window (history s key ++ appended key s inputs).
Proof.
  induction inputs as [|i l IH]; intros s Hlen.
  - cbn [appended]. rewrite exec_nil, app_nil_r. by rewrite window_short.
  - rewrite exec_cons. cbn [appended].
    pose proof (step_history s i Hlen) as Hstep.
    rewrite IH by (rewrite Hstep, window_length; lia).
    by rewrite Hstep, window_app, app_assoc.
Qed.

Lemma history_init t0 : history (init t0) key = [].
Proof.
  unfold history. cbn.
  rewrite !lookup_insert. repeat case_decide; try done.
Qed.
End history_of_a_room.

(** C1. Histories are sliding windows of 100 messages.
    - Starting from a freshly constructed room, after any sequence [ms] of
      [addMessage] calls the history is exactly the last [MAX_HISTORY] = 100
      messages of [ms] in arrival order (oldest first); its length is
      [min 100 (length ms)], so it is all of [ms] while at most 100 were
      appended and has length exactly 100 afterwards.
    - In the running server, after any sequence of inbound events the
      history of every room is exactly the last 100 of the messages that
      were appended to it, in arrival order. *)
Theorem history_sliding_window (nm key : string) (t0 : Z)
    (ms : list Message) (inputs : list Input) :
  let h := Room.messages (append_all ms (Room.new nm t0)) in
  let sent := appended key (init t0) inputs in
  let h' := history (exec (init t0) inputs) key in
  MAX_HISTORY = 100 ∧
  (h = drop (length ms - MAX_HISTORY) ms ∧
   length h = min MAX_HISTORY (length ms) ∧
   ∃ evicted, ms = evicted ++ h) ∧
  (h' = drop (length sent - MAX_HISTORY) sent ∧
   length h' = min MAX_HISTORY (length sent) ∧
   ∃ evicted, sent = evicted ++ h').
Proof.
  cbn zeta. split; [done|]. split.
  - assert (H : Room.messages (append_all ms (Room.new nm t0)) =
                drop (length ms - MAX_HISTORY) ms).
    { rewrite append_all_window; cbn [Room.new Room.messages]; [done | cbn; lia]. }
    rewrite H. repeat split.
    + rewrite length_drop. lia.
    + exists (take (length ms - MAX_HISTORY) ms). by rewrite take_drop.
  - assert (H : history (exec (init t0) inputs) key =
                window (appended key (init t0) inputs)).
    { rewrite exec_history; rewrite history_init; [done | cbn; lia]. }
    rewrite H. repeat split.
    + apply window_length.
    + exists (take (length (appended key (init t0) inputs) - MAX_HISTORY)
                (appended key (init t0) inputs)).
      unfold window. by rewrite take_drop.
Qed.

(** ** Typing indicators *)

(** C3, as the code has it: ['typing'] writes nothing (so leaves nothing
    pending) and emits one ['user-typing'] to the other sockets of the
    sender's room; a ['user-stop-typing'] is emitted only while handling an
    explicit ['stop-typing'] from a registered socket, addressed to the
    other sockets of its room. *)
Theorem stop_typing_only_on_request (s : State) (c : string) (t : Z) :
  dispatch (mkInput c t Typing) s =
    (tt, s,
     match users s !! c with
     | Some u => [ mkEmission (SocketTo c (User.room u))
                     (sockets_in s (User.room u) ∖ {[c]})
                     (EvUserTyping (User.username u) c) ]
     | None => []
     end) ∧
  ∀ i em, em ∈ emitted (dispatch i s) → is_stop_typing (event em) = true →
    ev i = StopTyping ∧
    ∃ u, users s !! sock i = Some u ∧
         em = mkEmission (SocketTo (sock i) (User.room u))
                (sockets_in s (User.room u) ∖ {[sock i]})
                (EvUserStopTyping (sock i)).
Proof.
  split.
  - unfold dispatch, on_typing, bind, users_get; cbn.
    destruct (users s !! c); reflexivity.
  - intros [a n e] em Hin Hstop. unfold dispatch, emitted in Hin; cbn in Hin.
    destruct e; cbn in Hin.
    + by apply elem_of_nil in Hin.
    + unfold on_join in Hin. open_handler Hin; scan_emissions Hin Hstop.
    + unfold on_send_message in Hin. open_handler Hin; scan_emissions Hin Hstop.
    + unfold on_typing in Hin. open_handler Hin; scan_emissions Hin Hstop.
    + unfold on_stop_typing in Hin; cbn in Hin.
      destruct (users s !! a) as [u|] eqn:Hu; cbn in Hin; [|by apply elem_of_nil in Hin].
      apply list_elem_of_singleton in Hin as ->. split; [done|]. by exists u.
    + unfold on_switch_room in Hin. open_handler Hin; scan_emissions Hin Hstop.
    + unfold on_private_message in Hin. open_handler Hin; scan_emissions Hin Hstop.
    + unfold on_disconnect in Hin. open_handler Hin; scan_emissions Hin Hstop.
Qed.

(** ** Events from sockets that have not joined *)

(** C4, as the code has it: every handler that starts with
    [if (!user) return] (that is ['send-message'], ['typing'],
    ['stop-typing'], ['switch-room'], ['private-message']) is silent for a
    socket that is not in [users]: it emits nothing, to the sender or to
    anyone else, and leaves [users], [rooms] and the Socket.IO rooms as
    they were. *)
Theorem unjoined_events_ignored (s : State) (i : Input) :
  users s !! sock i = None →
  needs_user (ev i) = true →
  dispatch i s = (tt, s, []).
Proof.
  intros Hu Hev. unfold dispatch.
  destruct (ev i); try discriminate Hev;
    unfold on_send_message, on_typing, on_stop_typing, on_switch_room,
      on_private_message; by rewrite bind_users_get, Hu.
Qed.

(** ** Private messages *)

(** C5, as the code has it: a ['private-message'] from a registered socket
    is handled the same way whether or not the target id is known.  The
    stores are left unchanged; the message goes once to the Socket.IO room
    named by the target id (sender excluded) and once back to the sender.
    So the sender is delivered exactly its own message, and another socket
    is delivered something only if it sits in the Socket.IO room of that
    name, in which case it is delivered that message. *)
Theorem private_message_effect (s : State) (c : string) (t : Z)
    (to toId text : string) (u : User.t) :
  users s !! c = Some u →
  let m := mkPrivateMsg t (User.username u) c to text t type_private in
  let out := emitted (dispatch (mkInput c t (PrivateMessage to toId text)) s) in
  dispatch (mkInput c t (PrivateMessage to toId text)) s =
    (tt, s, [ mkEmission (SocketTo c toId) (sockets_in s toId ∖ {[c]}) (EvPrivateMessage m);
              mkEmission (SocketEmit c) {[c]} (EvPrivateMessage m) ]) ∧
  received c out = [ EvPrivateMessage m ] ∧
  ∀ c', c' ≠ c →
    received c' out = if decide (c' ∈ sockets_in s toId) then [ EvPrivateMessage m ] else [].
Proof.
  intros Hu m out.
  assert (Hd : dispatch (mkInput c t (PrivateMessage to toId text)) s =
    (tt, s, [ mkEmission (SocketTo c toId) (sockets_in s toId ∖ {[c]}) (EvPrivateMessage m);
              mkEmission (SocketEmit c) {[c]} (EvPrivateMessage m) ])).
  { unfold dispatch, on_private_message, bind, users_get; cbn. by rewrite Hu. }
  split; [done|]. subst out. rewrite Hd. unfold received, emitted; cbn [snd].
  split.
  - rewrite filter_cons_False by (cbn; set_solver).
    rewrite filter_cons_True by (cbn; set_solver). done.
  - intros c' Hne. case_decide as Hin.
    + rewrite filter_cons_True by (cbn; set_solver).
      rewrite filter_cons_False by (cbn; set_solver). done.
    + rewrite filter_cons_False by (cbn; set_solver).
      rewrite filter_cons_False by (cbn; set_solver). done.
Qed.

(** ** A second join on the same socket *)

(** C6, as the code has it: ['join'] never looks at [users] before writing
    to it.  Whatever the state, also when the socket is already registered,
    the join goes through: the sender is welcomed, and [users] maps the
    socket to a fresh entry with the new name, room key and join time, every
    other entry being kept. *)
Theorem join_overwrites_registry (s : State) (c : string) (t : Z)
    (nm : string) (rm : option string) :
  let room := default "general" rm in
  let i := mkInput c t (Join nm rm) in
  users (step s i) = <[c := User.mk c nm (toLowerCase room) t]> (users s) ∧
  head (received c (emitted (dispatch i s))) =
    Some (EvMessage (system_message ("Welcome to " +:+ room +:+ ", " +:+ nm +:+ "!") t)).
Proof.
  cbn zeta. split.
  - by rewrite step_users.
  - unfold dispatch, on_join, received, emitted; cbn.
    destruct (rooms s !! _); cbn;
      (destruct (decide (c ∈ ({[c]} : gset string))) as [_|Hn]; [done|set_solver]).
Qed.

(** ** Registry and rooms agree, one way: a registered socket is a member
    of its current room *)

Lemma members_is_Some s k c : c ∈ members s k → is_Some (rooms s !! k).
Proof.
  unfold members, room_members. destruct (rooms s !! k); [by eauto|set_solver].
Qed.

Lemma registered_is_member_init t0 : registered_is_member (init t0).
Proof. intros c u Hu. unfold init in Hu; cbn [users] in Hu. by rewrite lookup_empty in Hu. Qed.

Lemma registered_is_member_step s i :
  registered_is_member s → registered_is_member (step s i).
Proof.
  intros Hinv c u. rewrite step_users. intros Hu.
  rewrite step_members.
  destruct (ev i) eqn:E; try (destruct (users s !! sock i) eqn:Ha); try by apply Hinv.
  - (* join, socket already registered *)
    destruct (decide (sock i = c)) as [<-|Hne].
    + rewrite lookup_insert_eq in Hu. injection Hu as <-. cbn. by auto.
    + rewrite lookup_insert_ne in Hu by done. destruct (Hinv c u Hu); by auto.
  - destruct (decide (sock i = c)) as [<-|Hne].
    + rewrite lookup_insert_eq in Hu. injection Hu as <-. cbn. by auto.
    + rewrite lookup_insert_ne in Hu by done. destruct (Hinv c u Hu); by auto.
  - (* switch-room *)
    rewrite lookup_alter in Hu. case_decide as Hc.
    + subst c. rewrite Ha in Hu. injection Hu as <-. cbn.
      destruct (Hinv _ _ Ha). by auto.
    + destruct (Hinv c u Hu) as [? ?]. split; [done|]. left. naive_solver.
  - rewrite lookup_alter in Hu. case_decide as Hc; [subst c; by rewrite Ha in Hu|].
    by apply Hinv.
  - (* disconnect *)
    rewrite lookup_delete in Hu. case_decide as Hc; [done|].
    destruct (Hinv c u Hu) as [? ?]. naive_solver.
  - rewrite lookup_delete in Hu. case_decide as Hc; [done|]. by apply Hinv.
Qed.

Lemma reachable_registered_is_member s : reachable s → registered_is_member s.
Proof.
  apply reachable_invariant;
    [apply registered_is_member_init | apply registered_is_member_step].
Qed.

(** ** Events on other sockets do not touch a socket's entry or memberships *)

Lemma step_users_frame s i c :
  sock i ≠ c → users (step s i) !! c = users s !! c.
Proof.
  intros Hne. rewrite step_users.
  destruct (ev i); rewrite ?lookup_insert_ne, ?lookup_alter_ne, ?lookup_delete_ne; done.
Qed.

Lemma step_members_frame s i c k :
  sock i ≠ c → c ∈ members (step s i) k ↔ c ∈ members s k.
Proof.
  intros Hne. rewrite step_members.
  destruct (ev i); destruct (users s !! sock i); naive_solver.
Qed.

Lemma exec_frame s l c :
  Forall (λ i, sock i ≠ c) l →
  users (exec s l) !! c = users s !! c ∧
  ∀ k, c ∈ members (exec s l) k ↔ c ∈ members s k.
Proof.
  revert s; induction l as [|i l IH]; intros s Hl; [done|].
  apply Forall_cons in Hl as [Hi Hl]. rewrite exec_cons.
  destruct (IH (step s i) Hl) as [-> Hm]. split.
  - by apply step_users_frame.
  - intros k. rewrite Hm. by apply step_members_frame.
Qed.

(** ** Join, switch, disconnect *)

(** C7. A socket joins room [A] (the default room when [A] is omitted),
    later switches to room [B], later disconnects; events of other sockets
    may be handled in between.  From any state, afterwards the socket has
    no entry in [users] and is in the member set neither of [A] nor of
    [B]. *)
Theorem join_switch_disconnect_leaves_no_residue
    (s : State) (c nm : string) (A : option string) (B : string)
    (t1 t2 t3 : Z) (others1 others2 : list Input) :
  Forall (λ i, sock i ≠ c) others1 →
  Forall (λ i, sock i ≠ c) others2 →
  let s' := exec s ([mkInput c t1 (Join nm A)] ++ others1 ++
                    [mkInput c t2 (SwitchRoom B)] ++ others2 ++
                    [mkInput c t3 Disconnect]) in
  users s' !! c = None ∧
  (c ∉ members s' (toLowerCase (default "general" A))) ∧
  (c ∉ members s' (toLowerCase B)).
Proof.
  intros H1 H2. cbn zeta.
  rewrite !exec_app. cbn [exec run]. rewrite !exec_cons, !exec_nil.
  set (kA := toLowerCase (default "general" A)). set (kB := toLowerCase B).
  set (s1 := step s (mkInput c t1 (Join nm A))).
  set (s2 := exec s1 others1).
  set (s3 := step s2 (mkInput c t2 (SwitchRoom B))).
  set (s4 := exec s3 others2).
  set (s5 := step s4 (mkInput c t3 Disconnect)).
  assert (U1 : users s1 !! c = Some (User.mk c nm kA t1)).
  { subst s1. rewrite step_users. cbn. by rewrite lookup_insert_eq. }
  destruct (exec_frame s1 others1 c H1) as [U2 M2]. fold s2 in U2, M2.
  rewrite U1 in U2.
  assert (U3 : users s3 !! c = Some (User.set_room kB (User.mk c nm kA t1))).
  { subst s3. rewrite step_users. cbn. by rewrite lookup_alter_eq, U2. }
  assert (M3 : ∀ k, c ∈ members s3 k → k = kB ∨ k ≠ kA).
  { intros k. subst s3. rewrite step_members. cbn. rewrite U2. cbn.
    fold kB. intros [[_ Hk]|[-> _]]; [right|by left]. intros ->. by apply Hk. }
  destruct (exec_frame s3 others2 c H2) as [U4 M4]. fold s4 in U4, M4.
  rewrite U3 in U4.
  assert (M5 : ∀ k, c ∈ members s5 k → k ≠ kB ∧ c ∈ members s3 k).
  { intros k. subst s5. rewrite step_members. cbn. rewrite U4. cbn.
    intros [Hin Hk]. split; [|by apply M4]. intros ->. by apply Hk. }
  split; [|split].
  - subst s5. rewrite step_users. cbn. by rewrite lookup_delete_eq.
  - intros Hin. apply M5 in Hin as [Hne Hin]. apply M3 in Hin as [?|?]; done.
  - intros Hin. by apply M5 in Hin as [Hne _].
Qed.

(** ** Switching to the room one is already in *)

Lemma addUser_removeUser c R :
  c ∈ Room.users R → Room.addUser c (Room.removeUser c R) = R.
Proof.
  intros Hc. destruct R as [nm us ms ct]; unfold Room.addUser, Room.removeUser; cbn in *.
  f_equal. apply set_eq; intros x.
  rewrite elem_of_union, elem_of_difference, elem_of_singleton.
  destruct (decide (x = c)); naive_solver.
Qed.

Lemma set_room_same u : User.set_room (User.room u) u = u.
Proof. by destruct u. Qed.

(** C10. In a reachable state, let socket [c] be registered with current
    room key [r].  Handling a ['switch-room'] from [c] that names a room
    whose key is again [r] leaves [users] and [rooms] exactly as they were:
    the member set and the history of room [r], the current-room field of
    [c]'s entry, and every other room are unchanged. *)
Theorem switch_to_current_room_keeps_stores
    (s : State) (c rm : string) (t : Z) (u : User.t) :
  reachable s →
  users s !! c = Some u →
  toLowerCase rm = User.room u →
  let s' := step s (mkInput c t (SwitchRoom rm)) in
  members s' (User.room u) = members s (User.room u) ∧
  history s' (User.room u) = history s (User.room u) ∧
  User.room <$> users s' !! c = Some (User.room u) ∧
  (∀ k, k ≠ User.room u → rooms s' !! k = rooms s !! k) ∧
  users s' = users s ∧ rooms s' = rooms s.
Proof.
  intros Hreach Hu Hkey. cbn zeta.
  set (s' := step s (mkInput c t (SwitchRoom rm))).
  assert (HU : users s' = users s).
  { subst s'. rewrite step_users; cbn. rewrite Hkey.
    apply alter_id. intros u' Hu'. rewrite Hu in Hu'. injection Hu' as <-.
    apply set_room_same. }
  assert (HR : rooms s' = rooms s).
  { subst s'. rewrite step_rooms; cbn. rewrite Hu, Hkey.
    destruct (reachable_registered_is_member s Hreach c u Hu) as [_ Hmem].
    unfold members, room_members in Hmem.
    destruct (rooms s !! User.room u) as [R|] eqn:HRoom; [|set_solver]. cbn in Hmem.
    unfold ensure_room. rewrite lookup_alter_eq, HRoom. cbn.
    rewrite alter_alter_eq. apply alter_id.
    intros R' HR'. rewrite HRoom in HR'. injection HR' as <-. cbn.
    by apply addUser_removeUser. }
  unfold members, history. rewrite HU, HR, Hu. by repeat split.
Qed.

(** ** Room keys *)

Lemma lower_ascii_upper a b :
  is_upper a = true → nat_of_ascii b = nat_of_ascii a + 32 →
  lower_ascii a = b ∧ lower_ascii b = b.
Proof.
  intros Hup Hb. unfold is_upper in Hup. split.
  - unfold lower_ascii; cbv zeta. rewrite Hup, <- Hb. apply ascii_nat_embedding.
  - unfold lower_ascii; cbv zeta.
    apply andb_true_iff in Hup as [H1 H2]. apply Nat.leb_le in H1, H2.
    replace (nat_of_ascii b <=? 90) with false by (symmetry; apply Nat.leb_gt; lia).
    by rewrite andb_false_r.
Qed.

Lemma same_letter_lower a b : same_letter a b = true → lower_ascii a = lower_ascii b.
Proof.
  unfold same_letter. rewrite !orb_true_iff, !andb_true_iff, !Nat.eqb_eq.
  intros [[Heq|[Hup Hn]]|[Hup Hn]].
  - by apply Ascii.eqb_eq in Heq as ->.
  - destruct (lower_ascii_upper a b Hup Hn) as [-> ->]. done.
  - destruct (lower_ascii_upper b a Hup Hn) as [-> ->]. done.
Qed.

Lemma same_letter_ascii a b :
  same_letter a b = true → (nat_of_ascii a <? 128) = true → (nat_of_ascii b <? 128) = true.
Proof.
  unfold same_letter, is_upper.
  rewrite !orb_true_iff, !andb_true_iff, !Nat.eqb_eq, !Nat.leb_le, !Nat.ltb_lt.
  intros [[Heq|[Hup Hn]]|[Hup Hn]] Ha.
  - by apply Ascii.eqb_eq in Heq as <-.
  - lia.
  - lia.
Qed.

Lemma differ_only_in_case_ascii s1 : ∀ s2,
  differ_only_in_case s1 s2 = true → ascii_only s1 = true →
  ascii_only s2 = true ∧ ascii_toLowerCase s1 = ascii_toLowerCase s2.
Proof.
  induction s1 as [|a r1 IH]; intros [|b r2] Hd Ha; try done.
  cbn [differ_only_in_case ascii_only] in Hd, Ha.
  apply andb_true_iff in Hd as [Hab Hr]. apply andb_true_iff in Ha as [Ha Hr1].
  destruct (IH r2 Hr Hr1) as [Hr2 Heq]. split.
  - cbn [ascii_only]. by rewrite (same_letter_ascii a b Hab Ha), Hr2.
  - cbn [ascii_toLowerCase]. f_equal; [by apply same_letter_lower | done].
Qed.

(** On names of ASCII characters, names that are equal up to the case of
    their letters have the same lower-case form, whatever the engine. *)
Lemma differ_only_in_case_lower s1 s2 :
  ascii_only s1 = true → differ_only_in_case s1 s2 = true →
  toLowerCase s1 = toLowerCase s2.
Proof.
  intros Ha Hd. destruct (differ_only_in_case_ascii s1 s2 Hd Ha) as [Hb Heq].
  unfold toLowerCase. by rewrite Ha, Hb.
Qed.

Lemma keys_lowercase_alter f k rs :
  (∀ R, Room.name (f R) = Room.name R) →
  keys_lowercase rs → keys_lowercase (alter f k rs).
Proof.
  intros Hf Hrs j R. rewrite lookup_alter. case_decide as Hk; [subst j|by apply Hrs].
  destruct (rs !! k) as [R0|] eqn:H0; [|done]. cbn. intros [= <-].
  rewrite Hf. by apply Hrs.
Qed.

Lemma keys_lowercase_ensure nm t rs :
  keys_lowercase rs → keys_lowercase (ensure_room (toLowerCase nm) nm t rs).
Proof.
  intros Hrs j R. unfold ensure_room.
  destruct (rs !! toLowerCase nm) eqn:Hk; [by apply Hrs|].
  rewrite lookup_insert. case_decide as Hj; [|by apply Hrs].
  by intros [= <-].
Qed.

Lemma keys_lowercase_init t0 : keys_lowercase (rooms (init t0)).
Proof.
  intros k R. cbn.
  rewrite !lookup_insert. repeat case_decide; try (intros [= <-]; by subst k).
  all: by rewrite lookup_empty.
Qed.

Lemma keys_lowercase_step s i :
  keys_lowercase (rooms s) → keys_lowercase (rooms (step s i)).
Proof.
  intros Hs. rewrite step_rooms.
  destruct (ev i); destruct (users s !! sock i); try done;
    repeat first [ apply keys_lowercase_alter; [by intros []|]
                 | apply keys_lowercase_ensure ];
    done.
Qed.

Lemma has_general_alter f k rs :
  (∀ R, Room.name (f R) = Room.name R) → has_general rs → has_general (alter f k rs).
Proof.
  intros Hf (R & HR & Hn). unfold has_general. rewrite lookup_alter.
  case_decide as Hk; [subst k|]; rewrite HR; cbn; eexists; (split; [done|]);
    by rewrite ?Hf.
Qed.

Lemma has_general_ensure k nm t rs : has_general rs → has_general (ensure_room k nm t rs).
Proof.
  intros (R & HR & Hn). unfold has_general, ensure_room.
  destruct (rs !! k) eqn:Hk; [by exists R|].
  rewrite lookup_insert. case_decide; [subst; congruence|by exists R].
Qed.

Lemma has_general_step s i : has_general (rooms s) → has_general (rooms (step s i)).
Proof.
  intros Hs. rewrite step_rooms.
  destruct (ev i); destruct (users s !! sock i); try done;
    repeat first [ apply has_general_alter; [by intros []|]
                 | apply has_general_ensure ];
    done.
Qed.

Lemma reachable_rooms s :
  reachable s → keys_lowercase (rooms s) ∧ has_general (rooms s).
Proof.
  apply (reachable_invariant (λ s, keys_lowercase (rooms s) ∧ has_general (rooms s))).
  - intros t0. split; [apply keys_lowercase_init|]. by eexists.
  - intros s0 i [? ?]. split; [by apply keys_lowercase_step | by apply has_general_step].
Qed.

Lemma join_lands_in_key s c t nm rm :
  let key := toLowerCase (default "general" rm) in
  let s' := step s (mkInput c t (Join nm rm)) in
  users s' !! c = Some (User.mk c nm key t) ∧ c ∈ members s' key.
Proof.
  cbn zeta. split.
  - rewrite step_users. cbn. by rewrite lookup_insert_eq.
  - rewrite step_members. cbn. by right.
Qed.

(** C9. In every reachable state:
    - a ['join'] without a room registers the socket with current room key
      ["general"] and adds it to the room stored under that key, which is
      the default room 'General';
    - a ['join'] naming a room registers the socket under the lower-cased
      name and adds it to the room stored under that key, and every room
      is stored under the lower-cased form of its display name;
    - two joins land in the same room exactly when [toLowerCase] gives
      their room names the same lower-case form: names that differ only
      in letter case, as the engine's [toLowerCase] sees it, share a room
      (with Unicode case mappings, 'ÉCOLE' and 'école' do), and two
      sockets that name rooms with different lower-case forms end up with
      different current rooms;
    - for names of ASCII characters this is decided without the engine:
      names equal up to the case of their letters have the same lower-case
      form. *)
Theorem join_room_key (s : State) (c nm : string) (t : Z) :
  reachable s →
  (let s1 := step s (mkInput c t (Join nm None)) in
   users s1 !! c = Some (User.mk c nm "general" t) ∧
   c ∈ members s1 "general" ∧
   ∃ R, rooms s1 !! "general" = Some R ∧ Room.name R = "General") ∧
  (∀ rm, let s2 := step s (mkInput c t (Join nm (Some rm))) in
     users s2 !! c = Some (User.mk c nm (toLowerCase rm) t) ∧
     c ∈ members s2 (toLowerCase rm) ∧
     ∀ k R, rooms s2 !! k = Some R → k = toLowerCase (Room.name R)) ∧
  (∀ rm1 rm2 c2 nm2 t2,
     let s3 := exec s [ mkInput c t (Join nm (Some rm1));
                        mkInput c2 t2 (Join nm2 (Some rm2)) ] in
     (toLowerCase rm1 = toLowerCase rm2 →
        User.room <$> users s3 !! c = Some (toLowerCase rm1) ∧
        User.room <$> users s3 !! c2 = Some (toLowerCase rm1) ∧
        c ∈ members s3 (toLowerCase rm1) ∧ c2 ∈ members s3 (toLowerCase rm1)) ∧
     (toLowerCase rm1 ≠ toLowerCase rm2 → c ≠ c2 →
        User.room <$> users s3 !! c = Some (toLowerCase rm1) ∧
        User.room <$> users s3 !! c2 = Some (toLowerCase rm2) ∧
        User.room <$> users s3 !! c ≠ User.room <$> users s3 !! c2)) ∧
  (∀ rm1 rm2, ascii_only rm1 = true → differ_only_in_case rm1 rm2 = true →
     toLowerCase rm1 = toLowerCase rm2).
Proof.
  intros Hreach. destruct (reachable_rooms s Hreach) as [Hkeys Hgen].
  split; [|split; [|split]].
  - cbn zeta. destruct (join_lands_in_key s c t nm None) as [HU HM].
    repeat split; [exact HU | exact HM |]. by apply has_general_step.
  - intros rm. cbn zeta. destruct (join_lands_in_key s c t nm (Some rm)) as [HU HM].
    repeat split; [exact HU | exact HM |]. by apply keys_lowercase_step.
  - intros rm1 rm2 c2 nm2 t2. cbn zeta.
    rewrite !exec_cons, exec_nil.
    set (s1 := step s (mkInput c t (Join nm (Some rm1)))).
    set (s3 := step s1 (mkInput c2 t2 (Join nm2 (Some rm2)))).
    assert (HU1 : users s1 !! c = Some (User.mk c nm (toLowerCase rm1) t))
      by apply (join_lands_in_key s c t nm (Some rm1)).
    assert (HM1 : c ∈ members s1 (toLowerCase rm1))
      by apply (join_lands_in_key s c t nm (Some rm1)).
    assert (HU2 : users s3 !! c2 = Some (User.mk c2 nm2 (toLowerCase rm2) t2))
      by apply (join_lands_in_key s1 c2 t2 nm2 (Some rm2)).
    assert (HM2 : c2 ∈ members s3 (toLowerCase rm2))
      by apply (join_lands_in_key s1 c2 t2 nm2 (Some rm2)).
    assert (HM3 : c ∈ members s3 (toLowerCase rm1)).
    { subst s3. rewrite step_members. cbn [ev sock]. by left. }
    split.
    + intros Hlow. rewrite <- Hlow in HU2, HM2.
      split; [|split; [by rewrite HU2|done]].
      destruct (decide (c2 = c)) as [->|Hne]; [by rewrite HU2|].
      subst s3. rewrite step_users_frame by done. by rewrite HU1.
    + intros Hlow Hne.
      assert (HU3 : users s3 !! c = Some (User.mk c nm (toLowerCase rm1) t)).
      { subst s3. rewrite step_users_frame by done. exact HU1. }
      rewrite HU3, HU2. cbn. split; [done|split; [done|congruence]].
  - intros rm1 rm2. apply differ_only_in_case_lower.
Qed.

(** ** Message ids *)

(** A message is created by ['send-message'] and ['private-message'] from a
    registered socket, and its id is the clock reading. *)
Lemma dispatch_created_ids s i :
  created_ids (emitted (dispatch i s)) =
    match ev i, users s !! sock i with
    | SendMessage _, Some _ | PrivateMessage _ _ _, Some _ => [now i]
    | _, _ => []
    end.
Proof.
  unfold dispatch, emitted, created_ids.
  destruct (ev i); cbn.
  - by destruct (users s !! sock i).
  - unfold on_join; cbn. by destruct (rooms s !! _); destruct (users s !! sock i).
  - unfold on_send_message; cbn. destruct (users s !! sock i); cbn; [|done].
    by destruct (rooms s !! _).
  - unfold on_typing; cbn. by destruct (users s !! sock i).
  - unfold on_stop_typing; cbn. by destruct (users s !! sock i).
  - unfold on_switch_room; cbn. destruct (users s !! sock i) as [u|]; cbn; [|done].
    destruct (rooms s !! User.room u); cbn; by destruct (_ !! toLowerCase room).
  - unfold on_private_message; cbn. by destruct (users s !! sock i).
  - unfold on_disconnect; cbn. destruct (users s !! sock i) as [u|]; cbn; [|done].
    by destruct (rooms s !! User.room u).
Qed.

Lemma created_ids_sublist inputs : ∀ s,
  created_ids (trace s inputs) `sublist_of` (now <$> inputs).
Proof.
  induction inputs as [|i l IH]; intros s; [done|].
  rewrite trace_cons. unfold created_ids. rewrite omap_app.
  fold (created_ids (emitted (dispatch i s))). rewrite dispatch_created_ids.
  fold (created_ids (trace (step s i) l)). rewrite fmap_cons.
  destruct (ev i); destruct (users s !! sock i); cbn;
    first [ by apply sublist_skip | by apply sublist_cons ].
Qed.

Lemma StronglySorted_sublist {A} (R : relation A) (l1 l2 : list A) :
  l1 `sublist_of` l2 → StronglySorted R l2 → StronglySorted R l1.
Proof.
  induction 1 as [|x l1 l2 Hsub IH|x l1 l2 Hsub IH]; intros Hs.
  - constructor.
  - apply StronglySorted_inv in Hs as [Hs Hx]. constructor; [by apply IH|].
    rewrite Forall_forall in Hx |- *. intros y Hy. apply Hx.
    by eapply elem_of_sublist.
  - apply StronglySorted_inv in Hs as [Hs _]. by apply IH.
Qed.

(** C8, as the code has it: the id of a message is the reading of
    [Date.now()] while the event that creates it is handled.  So along a
    run in which the clock never goes backwards, the id of a message
    created later is greater than or equal to that of one created
    earlier. *)
Theorem message_ids_follow_clock (s : State) (inputs : list Input) :
  Sorted Z.le (now <$> inputs) →
  created_ids (trace s inputs) `sublist_of` (now <$> inputs) ∧
  Sorted Z.le (created_ids (trace s inputs)) ∧
  ∀ j x y, created_ids (trace s inputs) !! j = Some x →
           created_ids (trace s inputs) !! S j = Some y → (x ≤ y)%Z.
Proof.
  intros Hclock.
  assert (Hsub := created_ids_sublist inputs s).
  assert (Hss : StronglySorted Z.le (created_ids (trace s inputs))).
  { eapply StronglySorted_sublist; [exact Hsub|].
    apply Sorted_StronglySorted; [apply _ | done]. }
  split; [done|]. split; [by apply StronglySorted_Sorted|].
  revert Hss. generalize (created_ids (trace s inputs)). clear.
  intros l Hl j. revert l Hl. induction j as [|j IH]; intros [|a [|b l]] Hl x y Hx Hy;
    try done; cbn in *.
  - injection Hx as <-. injection Hy as <-.
    apply StronglySorted_inv in Hl as [_ Hab]. by apply Forall_cons in Hab as [? _].
  - apply StronglySorted_inv in Hl as [Hl _]. by eapply IH.
Qed.

(** ** Rooms and registry agree, the other way *)

Lemma members_registered_consistent s : members_registered s → consistent s.
Proof.
  intros H. split; [done|]. intros k1 k2 c H1 H2.
  destruct (H _ _ H1) as (u1 & Hu1 & <-). destruct (H _ _ H2) as (u2 & Hu2 & <-).
  congruence.
Qed.

Lemma members_registered_init t0 : members_registered (init t0).
Proof.
  intros k c. unfold members, room_members. cbn.
  rewrite !lookup_insert. repeat case_decide; cbn; set_solver.
Qed.

Lemma members_registered_step s i :
  first_join s i → members_registered s → members_registered (step s i).
Proof.
  intros Hfirst Hinv k c. rewrite step_members, step_users. unfold first_join in Hfirst.
  destruct (ev i) eqn:E; destruct (users s !! sock i) as [u0|] eqn:Ha;
    try (by apply Hinv); try congruence.
  - (* join on an unregistered socket *)
    intros [Hin|[-> ->]].
    + destruct (Hinv _ _ Hin) as (u & Hu & Hk). exists u. split; [|done].
      rewrite lookup_insert_ne; [done|]. intros <-. congruence.
    + rewrite lookup_insert_eq. by eexists.
  - (* switch-room *)
    intros [[Hin Hnot]|[-> ->]].
    + destruct (Hinv _ _ Hin) as (u & Hu & Hk). exists u. split; [|done].
      rewrite lookup_alter_ne; [done|]. intros <-.
      rewrite Ha in Hu. injection Hu as ->. by apply Hnot.
    + rewrite lookup_alter_eq, Ha. by eexists.
  - intros Hin. destruct (Hinv _ _ Hin) as (u & Hu & Hk). exists u. split; [|done].
    rewrite lookup_alter_ne; [done|]. intros <-. congruence.
  - (* disconnect *)
    intros [Hin Hnot].
    destruct (Hinv _ _ Hin) as (u & Hu & Hk). exists u. split; [|done].
    rewrite lookup_delete_ne; [done|]. intros <-.
    rewrite Ha in Hu. injection Hu as ->. by apply Hnot.
  - intros Hin. destruct (Hinv _ _ Hin) as (u & Hu & Hk). exists u. split; [|done].
    rewrite lookup_delete_ne; [done|]. intros <-. congruence.
Qed.

(** As long as no socket joins twice, rooms and registry agree. *)
Lemma consistent_when_joins_are_first inputs : ∀ s,
  members_registered s → first_joins_only s inputs → consistent (exec s inputs).
Proof.
  induction inputs as [|i l IH]; intros s Hs Hl.
  - by apply members_registered_consistent.
  - destruct Hl as [Hi Hl]. rewrite exec_cons. apply IH; [|done].
    by apply members_registered_step.
Qed.

(** C2 at the failing input.  After the second join the socket is
    registered with current room ["random"] but is a member of both
    ["general"] and ["random"]; the state is reachable and not consistent.
    A later disconnect takes it out of ["random"] only: it stays in the
    member set of ["general"] with no entry in [users]. *)
Theorem rejoin_leaves_stale_membership :
  let s := exec (init 0) rejoin_run in
  let s' := step s (mkInput "a" 12 Disconnect) in
  reachable s ∧
  User.room <$> users s !! "a" = Some "random" ∧
  elements (members s "general") = ["a"] ∧
  elements (members s "random") = ["a"] ∧
  ¬ consistent s ∧
  users s' !! "a" = None ∧
  elements (members s' "general") = ["a"] ∧
  ¬ consistent s'.
Proof.
  cbn zeta.
  assert (Hg : "a" ∈ members (exec (init 0) rejoin_run) "general")
    by (refine (bool_decide_unpack _ _); by vm_compute).
  assert (Hr : "a" ∈ members (exec (init 0) rejoin_run) "random")
    by (refine (bool_decide_unpack _ _); by vm_compute).
  assert (Hg' : "a" ∈ members (step (exec (init 0) rejoin_run) (mkInput "a" 12 Disconnect))
                  "general")
    by (refine (bool_decide_unpack _ _); by vm_compute).
  split; [by exists 0%Z, rejoin_run|].
  split; [by vm_compute|]. split; [by vm_compute|]. split; [by vm_compute|].
  split; [|split; [by vm_compute|split; [by vm_compute|]]].
  - intros [_ Huniq]. by specialize (Huniq _ _ _ Hg Hr).
  - intros [Hreg _]. destruct (Hreg _ _ Hg') as (u & Hu & _).
    by vm_compute in Hu.
Qed.

(** ** Scenarios *)

Example toLowerCase_General : toLowerCase "General" = "general".
Proof. reflexivity. Qed.

(** Two sockets join 'general', the first one says hello: both receive
    the message, and the history of the room has length 1. *)
Example hello_scenario :
  let out := emitted (dispatch (mkInput "a" 5 (SendMessage "hello")) two_in_general) in
  let m := mkMessage (Some 5%Z) "alice" (Some "a") "hello" 5 type_user in
  received "a" out = [EvMessage m] ∧
  received "b" out = [EvMessage m] ∧
  history (step two_in_general (mkInput "a" 5 (SendMessage "hello"))) "general" = [m].
Proof. by vm_compute. Qed.

(** Joining a room that does not exist creates it. *)
Example new_room_scenario :
  let s := step one_connected (mkInput "a" 2 (Join "alice" (Some "New-Room"))) in
  rooms one_connected !! "new-room" = None ∧
  (Room.name <$> rooms s !! "new-room") = Some "New-Room" ∧
  elements (members s "new-room") = ["a"].
Proof. by vm_compute. Qed.

(** 101 messages sent to one room: the first one is gone, 100 remain. *)
Example eviction_scenario :
  let sends := (λ n, mkInput "a" (Z.of_nat n) (SendMessage "m")) <$> seq 10 101 in
  let h := history (exec alice_joined sends) "general" in
  length (appended "general" alice_joined sends) = 101 ∧
  length h = 100 ∧
  (msg_id <$> head h) = Some (Some 11%Z) ∧
  (msg_id <$> last h) = Some (Some 110%Z).
Proof. by vm_compute. Qed.

(** A run in which nobody joins twice ends in a consistent state. *)
Lemma alice_joined_reachable : reachable alice_joined.
Proof. unfold alice_joined. apply reachable_exec, reachable_init. Qed.

Lemma two_in_general_reachable : reachable two_in_general.
Proof. unfold two_in_general. apply reachable_exec, reachable_init. Qed.

Example typing_run_consistent : consistent (exec (init 0) typing_run).
Proof.
  apply consistent_when_joins_are_first; [apply members_registered_init|].
  repeat split; by vm_compute.
Qed.

(** ** The runs behind the refuted claims, for every engine

    The rooms of these runs have ASCII names, so what they show does not
    depend on the engine. *)

Lemma typing_run_every_engine :
  filter is_user_typing (received "b" (trace (init 0) typing_run))
    = [EvUserTyping "alice" "a"] ∧
  filter is_stop_typing (event <$> trace (init 0) typing_run) = [].
Proof. by vm_compute. Qed.

Lemma unjoined_run_every_engine :
  users one_connected !! "a" = None ∧
  Forall (λ e, received "a" (emitted (dispatch (mkInput "a" 2 e) one_connected)) = [])
    [ SendMessage "hi"; Typing; SwitchRoom "Tech"; PrivateMessage "bob" "b" "hi" ].
Proof. split; [by vm_compute|]. repeat constructor. Qed.

Lemma ghost_run_every_engine :
  users alice_joined !! "ghost" = None ∧
  received "a"
    (emitted (dispatch (mkInput "a" 7 (PrivateMessage "bob" "ghost" "hello")) alice_joined))
  = [ EvPrivateMessage (mkPrivateMsg 7 "alice" "a" "bob" "hello" 7 type_private) ].
Proof. by vm_compute. Qed.

Lemma second_join_every_engine :
  users (step alice_joined (mkInput "a" 9 (Join "alice" (Some "Random")))) !! "a"
    = Some (User.mk "a" "alice" "random" 9).
Proof. by vm_compute. Qed.

Lemma same_tick_every_engine :
  created_ids (trace alice_joined same_tick) = [10%Z; 10%Z].
Proof. by vm_compute. Qed.

(** * Further properties of the chat server *)

(** ** The Socket.IO room table after one event *)

Lemma sockets_in_insert (s : State) (m : gmap string (gset string)) k X k' :
  default ∅ (<[k := X]> m !! k') = if decide (k = k') then X else default ∅ (m !! k').
Proof. rewrite lookup_insert. by case_decide. Qed.

Lemma step_adapter s i :
  adapter (step s i) =
    match ev i, users s !! sock i with
    | Connection, _ => <[sock i := sockets_in s (sock i) ∪ {[sock i]}]> (adapter s)
    | Join _ rm, _ =>
        <[toLowerCase (default "general" rm) :=
            sockets_in s (toLowerCase (default "general" rm)) ∪ {[sock i]}]> (adapter s)
    | SwitchRoom rm, Some u =>
        <[toLowerCase rm :=
            default ∅ (<[User.room u := sockets_in s (User.room u) ∖ {[sock i]}]> (adapter s)
                        !! toLowerCase rm) ∪ {[sock i]}]>
          (<[User.room u := sockets_in s (User.room u) ∖ {[sock i]}]> (adapter s))
    | Disconnect, _ => (λ S, S ∖ {[sock i]}) <$> adapter s
    | _, _ => adapter s
    end.
Proof.
  unfold step, dispatch. destruct (ev i) eqn:E.
  - by destruct (users s !! sock i).
  - unfold on_join, final; cbn. by destruct (rooms s !! _); destruct (users s !! sock i).
  - unfold on_send_message. rewrite bind_users_get.
    destruct (users s !! sock i) as [u|]; [|done].
    unfold final; cbn. by destruct (rooms s !! _).
  - unfold on_typing. rewrite bind_users_get. by destruct (users s !! sock i).
  - unfold on_stop_typing. rewrite bind_users_get. by destruct (users s !! sock i).
  - unfold on_switch_room. rewrite bind_users_get.
    destruct (users s !! sock i) as [u|]; [|done].
    unfold final; cbn.
    destruct (rooms s !! User.room u); cbn; by destruct (_ !! toLowerCase room).
  - unfold on_private_message. rewrite bind_users_get. by destruct (users s !! sock i).
  - unfold final; cbn. unfold on_disconnect; cbn.
    destruct (users s !! sock i) as [u|]; cbn; [|done].
    by destruct (rooms s !! User.room u).
Qed.

(** Which socket is in which Socket.IO room after one event. *)
Lemma step_sockets_in s i k c :
  c ∈ sockets_in (step s i) k ↔
    match ev i, users s !! sock i with
    | Connection, _ => c ∈ sockets_in s k ∨ (k = sock i ∧ c = sock i)
    | Join _ rm, _ =>
        c ∈ sockets_in s k ∨ (k = toLowerCase (default "general" rm) ∧ c = sock i)
    | SwitchRoom rm, Some u =>
        (c ∈ sockets_in s k ∧ ¬ (User.room u = k ∧ c = sock i))
        ∨ (k = toLowerCase rm ∧ c = sock i)
    | Disconnect, _ => c ∈ sockets_in s k ∧ c ≠ sock i
    | _, _ => c ∈ sockets_in s k
    end.
Proof.
  unfold sockets_in. rewrite step_adapter.
  destruct (ev i) eqn:E; destruct (users s !! sock i) as [u|] eqn:Hu; try done;
    rewrite ?lookup_fmap, ?(sockets_in_insert s); unfold sockets_in;
    repeat case_decide; subst;
    try match goal with H : User.room u = toLowerCase _ |- _ => rewrite H end;
    rewrite ?elem_of_union, ?elem_of_difference, ?elem_of_singleton;
    try (destruct (adapter s !! k); cbn;
         rewrite ?elem_of_difference, ?elem_of_singleton);
    try naive_solver; try set_solver.
Qed.

(** ** Invariants of runs without a second join *)

Lemma first_joins_invariant (P : State → Prop) :
  (∀ t0, P (init t0)) →
  (∀ s i, first_join s i → P s → P (step s i)) →
  ∀ s, reachable_first_joins s → P s.
Proof.
  intros Hinit Hstep s (t0 & l & Hl & ->).
  generalize (Hinit t0). generalize dependent (init t0).
  induction l as [|i l IH]; intros s0 Hl H0; [done|].
  destruct Hl as [Hi Hl]. rewrite exec_cons. apply IH; [done|]. by apply Hstep.
Qed.

Lemma reachable_first_joins_reachable s : reachable_first_joins s → reachable s.
Proof. intros (t0 & l & _ & ->). by exists t0, l. Qed.

Lemma subscribed_members_step s i : subscribed_members s → subscribed_members (step s i).
Proof.
  intros Hinv k c. rewrite step_sockets_in, step_members.
  pose proof (Hinv k c) as Hkc.
  destruct (ev i); destruct (users s !! sock i) as [u|]; naive_solver.
Qed.

Lemma reachable_subscribed_members s : reachable s → subscribed_members s.
Proof.
  apply reachable_invariant; [|apply subscribed_members_step].
  intros t0 k c. unfold sockets_in; cbn. rewrite lookup_empty. set_solver.
Qed.

Lemma members_subscribed_step s i :
  first_join s i → members_registered s →
  members_subscribed s → members_subscribed (step s i).
Proof.
  intros Hfirst Hreg Hinv k c. rewrite step_sockets_in, step_members.
  unfold first_join in Hfirst.
  destruct (ev i) eqn:E; destruct (users s !! sock i) as [u|] eqn:Hu;
    try (by apply Hinv); try congruence.
  - intros H. left. by apply Hinv.
  - intros H. left. by apply Hinv.
  - intros [H|[-> ->]]; [left; by apply Hinv|by right].
  - intros [[H Hn]|[-> ->]]; [left; split; [by apply Hinv|done]|by right].
  - (* disconnect of a registered socket: it was in its current room only *)
    intros [H Hn]. split; [by apply Hinv|]. intros ->.
    destruct (Hreg _ _ H) as (u' & Hu' & Hk). rewrite Hu in Hu'. injection Hu' as <-.
    by apply Hn.
  - (* disconnect of an unregistered socket: it was in no room *)
    intros H. split; [by apply Hinv|]. intros ->.
    destruct (Hreg _ _ H) as (u' & Hu' & _). congruence.
Qed.

Lemma first_joins_agree s :
  reachable_first_joins s → members_registered s ∧ members_subscribed s.
Proof.
  apply (first_joins_invariant (λ s, members_registered s ∧ members_subscribed s)).
  - intros t0. split; [apply members_registered_init|].
    intros k c Hc. destruct (members_registered_init t0 _ _ Hc) as (u & Hu & _).
    unfold init in Hu; cbn [users] in Hu. by rewrite lookup_empty in Hu.
  - intros s0 i Hi [Hreg Hsub]. split.
    + by apply members_registered_step.
    + by apply members_subscribed_step.
Qed.

(** ** The member set of a room *)

(** X1. [addUser] and [removeUser] are set operations: adding a member
    again or removing a socket again changes nothing, and the user count
    moves by one exactly when the member set changes. *)
Theorem room_user_count (c : string) (r : Room.t) :
  Room.getUserCount (Room.addUser c r) =
    (if decide (c ∈ Room.users r) then Room.getUserCount r
     else S (Room.getUserCount r)) ∧
  Room.getUserCount (Room.removeUser c r) =
    (if decide (c ∈ Room.users r) then Room.getUserCount r - 1
     else Room.getUserCount r) ∧
  Room.addUser c (Room.addUser c r) = Room.addUser c r ∧
  Room.removeUser c (Room.removeUser c r) = Room.removeUser c r ∧
  Room.removeUser c (Room.addUser c (Room.removeUser c r)) = Room.removeUser c r.
Proof.
  destruct r as [nm us ms ct]. unfold Room.getUserCount, Room.addUser, Room.removeUser.
  cbn [Room.users Room.name Room.messages Room.createdAt].
  repeat split.
  - case_decide as Hc.
    + f_equal. set_solver.
    + rewrite size_union by set_solver. rewrite size_singleton. lia.
  - case_decide as Hc.
    + rewrite size_difference by set_solver. by rewrite size_singleton.
    + f_equal. set_solver.
  - f_equal. set_solver.
  - f_equal. set_solver.
  - f_equal. set_solver.
Qed.

(** ** What the histories hold *)

(** Where an appended message comes from: a ['send-message'] of the run,
    on a socket registered with the room when the event is handled. *)
Lemma appended_origin key inputs : ∀ s m,
  m ∈ appended key s inputs →
  msg_type m = type_user ∧
  ∃ l1 i l2 u, inputs = l1 ++ i :: l2 ∧
    ev i = SendMessage (msg_text m) ∧
    users (exec s l1) !! sock i = Some u ∧ User.room u = key ∧
    msg_userId m = Some (sock i) ∧ msg_user m = User.username u ∧
    msg_id m = Some (now i).
Proof.
  induction inputs as [|i l IH]; intros s m Hm; [by apply elem_of_nil in Hm|].
  cbn [appended] in Hm. apply elem_of_app in Hm as [Hm|Hm].
  - unfold appended_by in Hm.
    destruct (ev i) eqn:Hev; try (by apply elem_of_nil in Hm).
    destruct (users s !! sock i) as [u|] eqn:Hu; [|by apply elem_of_nil in Hm].
    destruct (rooms s !! key); [|by apply elem_of_nil in Hm].
    case_decide as Hroom; [|by apply elem_of_nil in Hm].
    apply list_elem_of_singleton in Hm as ->. cbn. split; [done|].
    exists [], i, l, u. by rewrite exec_nil.
  - destruct (IH _ _ Hm) as (Hty & l1 & j & l2 & u & -> & Hrest). split; [done|].
    exists (i :: l1), j, l2, u. by rewrite exec_cons.
Qed.

(** X2. Along every run from start-up, every stored history has at most
    100 entries and holds user messages only.  Each entry has type
    ['user'] and was built by a ['send-message'] of the run that arrived
    on a socket registered with this room at that moment: the entry has
    that socket's id as [userId], the name the socket was registered under
    as [user], the text of the event, and the clock reading of the event
    as [id].  System notices and private messages are never stored. *)
Theorem history_holds_user_messages_only (t0 : Z) (inputs : list Input)
    (k : string) (m : Message) :
  m ∈ history (exec (init t0) inputs) k →
  length (history (exec (init t0) inputs) k) ≤ MAX_HISTORY ∧
  msg_type m = type_user ∧
  ∃ l1 i l2 u, inputs = l1 ++ i :: l2 ∧
    ev i = SendMessage (msg_text m) ∧
    users (exec (init t0) l1) !! sock i = Some u ∧ User.room u = k ∧
    msg_userId m = Some (sock i) ∧ msg_user m = User.username u ∧
    msg_id m = Some (now i).
Proof.
  intros Hm.
  rewrite exec_history in * by (rewrite history_init; cbn; lia).
  rewrite history_init in *. cbn [app] in *. split.
  - rewrite window_length. lia.
  - apply (subseteq_drop _ _ m) in Hm. by eapply appended_origin.
Qed.

(** ** Rooms are kept *)

Lemma step_room_kept s i k R :
  rooms s !! k = Some R →
  ∃ R', rooms (step s i) !! k = Some R' ∧
        Room.name R' = Room.name R ∧ Room.createdAt R' = Room.createdAt R.
Proof.
  intros HR. rewrite step_rooms.
  assert (Halter : ∀ (f : Room.t → Room.t) (j : string) (rs : gmap string Room.t),
    (∀ x, Room.name (f x) = Room.name x ∧ Room.createdAt (f x) = Room.createdAt x) →
    (∃ R', rs !! k = Some R' ∧ Room.name R' = Room.name R ∧
           Room.createdAt R' = Room.createdAt R) →
    ∃ R', alter f j rs !! k = Some R' ∧ Room.name R' = Room.name R ∧
          Room.createdAt R' = Room.createdAt R).
  { intros f j rs Hf (R' & HR' & Hn & Hc). rewrite lookup_alter.
    case_decide; [subst j|by eauto]. rewrite HR'. cbn.
    destruct (Hf R') as [Hf1 Hf2]. exists (f R'). split; [done|]. split; congruence. }
  assert (Hens : ∀ (j nm : string) (t : Z) (rs : gmap string Room.t),
    (∃ R', rs !! k = Some R' ∧ Room.name R' = Room.name R ∧
           Room.createdAt R' = Room.createdAt R) →
    ∃ R', ensure_room j nm t rs !! k = Some R' ∧ Room.name R' = Room.name R ∧
          Room.createdAt R' = Room.createdAt R).
  { intros j nm t rs (R' & HR' & Hn & Hc). unfold ensure_room.
    destruct (rs !! j) eqn:Hj; [by eauto|].
    rewrite lookup_insert. case_decide; [subst; congruence|by eauto]. }
  destruct (ev i); destruct (users s !! sock i); eauto;
    repeat first [ apply Halter; [by intros []|] | apply Hens ]; eauto.
Qed.

(** X3. Rooms are created but never deleted, replaced or renamed: a room
    present at some point is present after any further events, under the
    same key, with the same display name and creation time; so the number
    of rooms never goes down. *)
Theorem rooms_never_removed (s : State) (inputs : list Input) (k : string) (R : Room.t) :
  rooms s !! k = Some R →
  (∃ R', rooms (exec s inputs) !! k = Some R' ∧
         Room.name R' = Room.name R ∧ Room.createdAt R' = Room.createdAt R) ∧
  size (rooms s) ≤ size (rooms (exec s inputs)).
Proof.
  intros HR. split.
  - revert s R HR. induction inputs as [|i l IH]; intros s R HR; [by eauto|].
    rewrite exec_cons. destruct (step_room_kept s i k R HR) as (R1 & H1 & Hn & Hc).
    destruct (IH _ _ H1) as (R' & H' & Hn' & Hc'). exists R'. split; [done|].
    split; congruence.
  - clear HR. rewrite <- !size_dom. apply subseteq_size.
    revert s. induction inputs as [|i l IH]; intros s; [done|].
    rewrite exec_cons. etrans; [|apply IH].
    intros j Hj. apply elem_of_dom in Hj. apply elem_of_dom.
    by apply step_rooms_mono.
Qed.

(** ** Registry, rooms and Socket.IO rooms *)

Lemma two_in_general_first_joins : reachable_first_joins two_in_general.
Proof.
  exists 0%Z, [ mkInput "a" 1 Connection; mkInput "b" 2 Connection;
               mkInput "a" 3 (Join "alice" None); mkInput "b" 4 (Join "bob" None) ].
  split; [|reflexivity]. repeat split; by vm_compute.
Qed.

(** X4. In every reachable state, also after repeated joins, the entry of
    a registered socket carries the socket's own id, and its current room
    exists and has the socket in its member set. *)
Theorem registered_sockets_are_members (s : State) (c : string) (u : User.t) :
  reachable s →
  users s !! c = Some u →
  User.id u = c ∧
  ∃ R, rooms s !! User.room u = Some R ∧ c ∈ Room.users R.
Proof.
  intros Hreach Hu.
  destruct (reachable_registered_is_member s Hreach c u Hu) as [Hid Hmem].
  split; [done|]. unfold members, room_members in Hmem.
  destruct (rooms s !! User.room u) as [R|]; [by exists R|set_solver].
Qed.

(** X5. Along every run from start-up in which no socket joins while it
    is registered, rooms and registry agree: every member of a room is
    registered with that room as its current room, and no socket is a
    member of two rooms. *)
Theorem rooms_agree_with_registry_without_rejoin (s : State) :
  reachable_first_joins s → consistent s.
Proof.
  intros Hs. apply members_registered_consistent. by apply first_joins_agree.
Qed.

(** X6. The Socket.IO rooms follow the chat rooms.  In every reachable
    state a socket that is in the Socket.IO room [k] is a member of the
    chat room [k], unless [k] is the socket's own id; and when the state
    was reached without a second join, every member of a chat room is in
    the Socket.IO room of the same name. *)
Theorem socketio_rooms_track_membership (s : State) (k c : string) :
  reachable s →
  (c ∈ sockets_in s k → k = c ∨ c ∈ members s k) ∧
  (reachable_first_joins s → c ∈ members s k → c ∈ sockets_in s k).
Proof.
  intros Hs. split.
  - by apply reachable_subscribed_members.
  - intros Hs'. apply (first_joins_agree s Hs').
Qed.

(** ** Who is delivered what *)

Lemma received_singleton (c : string) (em : Emission) :
  received c [em] = if decide (c ∈ recipients em) then [event em] else [].
Proof.
  unfold received. case_decide.
  - by rewrite filter_cons_True.
  - by rewrite filter_cons_False.
Qed.

Lemma reachable_history_bounded s k : reachable s → length (history s k) ≤ MAX_HISTORY.
Proof.
  intros (t0 & l & ->). rewrite exec_history by (rewrite history_init; cbn; lia).
  rewrite window_length. lia.
Qed.

Lemma send_emitted s c t text u :
  users s !! c = Some u →
  emitted (dispatch (mkInput c t (SendMessage text)) s) =
    [ mkEmission (IoTo (User.room u)) (sockets_in s (User.room u))
        (EvMessage (mkMessage (Some t) (User.username u) (Some c) text t type_user)) ].
Proof.
  intros Hu. unfold dispatch, on_send_message; cbn [ev sock now].
  rewrite bind_users_get, Hu. unfold emitted; cbn.
  by destruct (rooms s !! User.room u).
Qed.

(** X7. A message sent by a registered socket, in a state reached without
    a second join, is delivered once to the sender and once to every other
    member of the sender's room; a socket that is not a member gets nothing
    (unless its own id is the room key); and the message is appended to the
    room's history, the oldest entry being dropped when there were 100. *)
Theorem send_message_reaches_room (s : State) (c text : string) (t : Z) (u : User.t) :
  reachable_first_joins s →
  users s !! c = Some u →
  let m := mkMessage (Some t) (User.username u) (Some c) text t type_user in
  let i := mkInput c t (SendMessage text) in
  let out := emitted (dispatch i s) in
  received c out = [EvMessage m] ∧
  (∀ c', c' ∈ members s (User.room u) → received c' out = [EvMessage m]) ∧
  (∀ c', c' ∉ members s (User.room u) → c' ≠ User.room u → received c' out = []) ∧
  history (step s i) (User.room u) = window (history s (User.room u) ++ [m]).
Proof.
  intros Hs Hu. cbn zeta.
  pose proof (reachable_first_joins_reachable s Hs) as Hreach.
  destruct (first_joins_agree s Hs) as [_ Hsub].
  destruct (reachable_registered_is_member s Hreach c u Hu) as [_ Hmem].
  rewrite (send_emitted s c t text u Hu).
  assert (Hdel : ∀ c', c' ∈ members s (User.room u) →
    received c' [ mkEmission (IoTo (User.room u)) (sockets_in s (User.room u))
        (EvMessage (mkMessage (Some t) (User.username u) (Some c) text t type_user)) ]
    = [EvMessage (mkMessage (Some t) (User.username u) (Some c) text t type_user)]).
  { intros c' Hc'. rewrite received_singleton. cbn [recipients event].
    rewrite decide_True; [done|]. by apply Hsub. }
  split; [by apply Hdel|]. split; [done|]. split.
  - intros c' Hc' Hne. rewrite received_singleton. cbn [recipients event].
    rewrite decide_False; [done|]. intros Hin.
    destruct (reachable_subscribed_members s Hreach _ _ Hin); [congruence|done].
  - rewrite step_history by (by apply reachable_history_bounded).
    unfold appended_by; cbn [ev sock now]. rewrite Hu.
    unfold members, room_members in Hmem.
    destruct (rooms s !! User.room u); [|set_solver].
    by rewrite decide_True.
Qed.

(** X8. Typing notices go to the others only.  For a registered socket,
    in a state reached without a second join, ['typing'] delivers one
    ['user-typing'] and ['stop-typing'] one ['user-stop-typing'] to every
    other member of its room, and nothing to the sender itself. *)
Theorem typing_reaches_other_members (s : State) (c : string) (t : Z) (u : User.t) :
  reachable_first_joins s →
  users s !! c = Some u →
  let out1 := emitted (dispatch (mkInput c t Typing) s) in
  let out2 := emitted (dispatch (mkInput c t StopTyping) s) in
  received c out1 = [] ∧ received c out2 = [] ∧
  ∀ c', c' ≠ c → c' ∈ members s (User.room u) →
    received c' out1 = [EvUserTyping (User.username u) c] ∧
    received c' out2 = [EvUserStopTyping c].
Proof.
  intros Hs Hu. cbn zeta.
  destruct (first_joins_agree s Hs) as [_ Hsub].
  unfold dispatch, on_typing, on_stop_typing; cbn [ev sock now].
  rewrite !bind_users_get, Hu. unfold socket_to, emitted; cbn [snd].
  rewrite !received_singleton; cbn [recipients event].
  rewrite !decide_False by set_solver. split; [done|]. split; [done|].
  intros c' Hne Hc'. rewrite !received_singleton; cbn [recipients event].
  rewrite !decide_True; [done| |];
    apply elem_of_difference; (split; [by apply Hsub|set_solver]).
Qed.

(** ** What a join sends *)

Lemma join_emitted s c t nm rm :
  let room := default "general" rm in
  let key := toLowerCase room in
  let i := mkInput c t (Join nm rm) in
  let s' := step s i in
  emitted (dispatch i s) =
    [ mkEmission (SocketEmit c) {[c]}
        (EvMessage (system_message ("Welcome to " +:+ room +:+ ", " +:+ nm +:+ "!") t));
      mkEmission (SocketEmit c) {[c]} (EvRoomHistory (history s' key));
      mkEmission (SocketTo c key) (sockets_in s' key ∖ {[c]})
        (EvMessage (system_message (nm +:+ " has joined the room") t));
      mkEmission (IoTo key) (sockets_in s' key)
        (EvUsersUpdate ((λ j, users s' !! j) <$> elements (members s' key))
           (size (members s' key)));
      mkEmission (SocketEmit c) {[c]} (EvRoomsList (api_rooms s')) ].
Proof.
  cbn zeta. unfold step, dispatch, on_join, emitted, final, api_rooms; cbn.
  by destruct (rooms s !! _).
Qed.

Lemma join_state s c t nm rm :
  let key := toLowerCase (default "general" rm) in
  let s' := step s (mkInput c t (Join nm rm)) in
  sockets_in s' key = sockets_in s key ∪ {[c]} ∧
  members s' key = members s key ∪ {[c]} ∧
  history s' key = history s key.
Proof.
  cbn zeta. split; [|split].
  - unfold sockets_in at 1. rewrite step_adapter; cbn [ev sock].
    by rewrite lookup_insert_eq.
  - apply set_eq; intros x. rewrite step_members; cbn [ev sock].
    rewrite elem_of_union, elem_of_singleton. naive_solver.
  - unfold history. rewrite step_rooms; cbn [ev sock now].
    rewrite history_alter_users by (by intros []). apply history_ensure_room.
Qed.

(** X9. What the joining socket is sent, in this order and nothing else:
    the welcome notice, the stored history of the room as it was before
    the join, the user list of the room, which now counts the joiner, and
    the list of all rooms. *)
Theorem join_delivers_history (s : State) (c nm : string) (t : Z) (rm : option string) :
  let room := default "general" rm in
  let key := toLowerCase room in
  let i := mkInput c t (Join nm rm) in
  let s' := step s i in
  received c (emitted (dispatch i s)) =
    [ EvMessage (system_message ("Welcome to " +:+ room +:+ ", " +:+ nm +:+ "!") t);
      EvRoomHistory (history s key);
      EvUsersUpdate ((λ j, users s' !! j) <$> elements (members s key ∪ {[c]}))
        (size (members s key ∪ {[c]}));
      EvRoomsList (api_rooms s') ] ∧
  Some (User.mk c nm key t) ∈ (λ j, users s' !! j) <$> elements (members s key ∪ {[c]}).
Proof.
  cbn zeta. rewrite join_emitted. cbn zeta.
  destruct (join_state s c t nm rm) as (Hsock & Hmem & Hhist). cbn zeta in *.
  rewrite Hsock, Hmem, Hhist. split.
  - unfold received.
    rewrite filter_cons_True by (cbn; set_solver).
    rewrite filter_cons_True by (cbn; set_solver).
    rewrite filter_cons_False by (cbn; set_solver).
    rewrite filter_cons_True by (cbn; set_solver).
    rewrite filter_cons_True by (cbn; set_solver).
    done.
  - apply list_elem_of_fmap. exists c. split.
    + rewrite step_users; cbn [ev sock now]. by rewrite lookup_insert_eq.
    + apply elem_of_elements. set_solver.
Qed.

(** X10. What the others are sent on a join: every other socket in the
    Socket.IO room of the joined key gets the notice that the user has
    joined, followed by the user list counting the joiner, and every
    socket outside it gets nothing.  In a state reached without a second
    join the members of the room are among the former. *)
Theorem join_is_announced_to_room (s : State) (c c' nm : string) (t : Z)
    (rm : option string) :
  c' ≠ c →
  let key := toLowerCase (default "general" rm) in
  let i := mkInput c t (Join nm rm) in
  let s' := step s i in
  received c' (emitted (dispatch i s)) =
    (if decide (c' ∈ sockets_in s key)
     then [ EvMessage (system_message (nm +:+ " has joined the room") t);
            EvUsersUpdate ((λ j, users s' !! j) <$> elements (members s key ∪ {[c]}))
              (size (members s key ∪ {[c]})) ]
     else []) ∧
  (reachable_first_joins s → c' ∈ members s key → c' ∈ sockets_in s key).
Proof.
  intros Hne. cbn zeta. split; [|intros Hs; apply (first_joins_agree s Hs)].
  rewrite join_emitted. cbn zeta.
  destruct (join_state s c t nm rm) as (Hsock & Hmem & Hhist). cbn zeta in *.
  rewrite Hsock, Hmem, Hhist. unfold received.
  rewrite filter_cons_False by (cbn; set_solver).
  rewrite filter_cons_False by (cbn; set_solver).
  case_decide as Hin.
  - rewrite filter_cons_True by (cbn; set_solver).
    rewrite filter_cons_True by (cbn; set_solver).
    rewrite filter_cons_False by (cbn; set_solver).
    done.
  - rewrite filter_cons_False by (cbn; set_solver).
    rewrite filter_cons_False by (cbn; set_solver).
    rewrite filter_cons_False by (cbn; set_solver).
    done.
Qed.

(** ** Switching rooms *)

(** X11. What ['switch-room'] does to the stores, from any state in which
    the socket is registered: its entry keeps name and join time and gets
    the lower-cased new room as current room; it is a member of the new
    room and, when the keys differ, no longer of the old one; the entries
    and memberships of all other sockets and every history are as before. *)
Theorem switch_room_moves_socket (s : State) (c rm : string) (t : Z) (u : User.t) :
  users s !! c = Some u →
  let new := toLowerCase rm in
  let s' := step s (mkInput c t (SwitchRoom rm)) in
  users s' !! c = Some (User.mk (User.id u) (User.username u) new (User.joinedAt u)) ∧
  c ∈ members s' new ∧
  (User.room u ≠ new → c ∉ members s' (User.room u)) ∧
  (∀ c' k, c' ≠ c →
     users s' !! c' = users s !! c' ∧ (c' ∈ members s' k ↔ c' ∈ members s k)) ∧
  (∀ k, history s' k = history s k) ∧
  is_Some (rooms s' !! new).
Proof.
  intros Hu. cbn zeta. repeat split.
  - rewrite step_users; cbn [ev sock]. by rewrite lookup_alter_eq, Hu.
  - rewrite step_members; cbn [ev sock]. rewrite Hu. by right.
  - intros Hne. rewrite step_members; cbn [ev sock]. rewrite Hu. naive_solver.
  - by apply step_users_frame.
  - by apply step_members_frame.
  - by apply step_members_frame.
  - unfold history. rewrite step_rooms; cbn [ev sock now]. rewrite Hu. cbn [ev].
    intros k. rewrite history_alter_users by (by intros []).
    rewrite history_ensure_room. by rewrite history_alter_users by (by intros []).
  - rewrite step_rooms; cbn [ev sock now]. rewrite Hu. cbn [ev].
    rewrite lookup_alter_is_Some. apply ensure_room_is_Some.
Qed.

(** ** Disconnecting *)

Lemma disconnect_emitted s c t u R :
  users s !! c = Some u →
  rooms s !! User.room u = Some R →
  emitted (dispatch (mkInput c t Disconnect) s) =
    [ mkEmission (SocketTo c (User.room u))
        ((sockets_in s (User.room u) ∖ {[c]}) ∖ {[c]})
        (EvMessage (system_message (User.username u +:+ " has left the room") t));
      mkEmission (IoTo (User.room u)) (sockets_in s (User.room u) ∖ {[c]})
        (EvUsersUpdate ((λ j, users s !! j) <$> elements (Room.users R ∖ {[c]}))
           (size (Room.users R ∖ {[c]}))) ].
Proof.
  intros Hu HR. unfold dispatch, emitted; cbn [ev sock now].
  unfold on_disconnect, bind, socket_leave_all, users_get; cbn.
  rewrite Hu; cbn. rewrite HR; cbn.
  unfold sockets_in, members, room_members; cbn.
  rewrite lookup_fmap, lookup_alter_eq, HR; cbn.
  destruct (adapter s !! User.room u); cbn; [done|].
  assert (He : (∅ : gset string) ∖ {[c]} = ∅) by set_solver.
  by rewrite !He.
Qed.

(** X12. What ['disconnect'] does.  For a registered socket whose room
    exists: its entry is deleted, it leaves the member set of its current
    room, the entries and memberships of the other sockets are untouched,
    the socket itself is sent nothing, and every other socket in the
    Socket.IO room of that key is sent the leave notice and the user list
    without it. *)
Theorem disconnect_unregisters (s : State) (c c' : string) (t : Z)
    (u : User.t) (R : Room.t) :
  users s !! c = Some u →
  rooms s !! User.room u = Some R →
  c' ≠ c →
  let i := mkInput c t Disconnect in
  let s' := step s i in
  let out := emitted (dispatch i s) in
  users s' = delete c (users s) ∧
  members s' (User.room u) = members s (User.room u) ∖ {[c]} ∧
  (∀ k, c' ∈ members s' k ↔ c' ∈ members s k) ∧
  received c out = [] ∧
  received c' out =
    (if decide (c' ∈ sockets_in s (User.room u))
     then [ EvMessage (system_message (User.username u +:+ " has left the room") t);
            EvUsersUpdate ((λ j, users s !! j) <$> elements (Room.users R ∖ {[c]}))
              (size (Room.users R ∖ {[c]})) ]
     else []).
Proof.
  intros Hu HR Hne. cbn zeta. split; [|split; [|split; [|split]]].
  - by rewrite step_users.
  - apply set_eq; intros x. rewrite step_members; cbn [ev sock]. rewrite Hu.
    rewrite elem_of_difference, elem_of_singleton. naive_solver.
  - intros k. by apply step_members_frame.
  - rewrite (disconnect_emitted s c t u R Hu HR). unfold received.
    rewrite filter_cons_False by (cbn; set_solver).
    rewrite filter_cons_False by (cbn; set_solver). done.
  - rewrite (disconnect_emitted s c t u R Hu HR). unfold received.
    case_decide as Hin.
    + rewrite filter_cons_True by (cbn; set_solver).
      rewrite filter_cons_True by (cbn; set_solver). done.
    + rewrite filter_cons_False by (cbn; set_solver).
      rewrite filter_cons_False by (cbn; set_solver). done.
Qed.

(** ** What a room switch sends *)

Lemma switch_emitted s c t rm u R :
  users s !! c = Some u →
  rooms s !! User.room u = Some R →
  let old := User.room u in
  let new := toLowerCase rm in
  let i := mkInput c t (SwitchRoom rm) in
  let s1 := after_leave s c old in
  let s' := step s i in
  emitted (dispatch i s) =
    [ mkEmission (SocketTo c old) (sockets_in s1 old ∖ {[c]})
        (EvMessage (system_message (User.username u +:+ " has left the room") t));
      mkEmission (IoTo old) (sockets_in s1 old)
        (EvUsersUpdate ((λ j, users s !! j) <$> elements (members s1 old))
           (size (members s1 old)));
      mkEmission (SocketEmit c) {[c]} (EvRoomHistory (history s' new));
      mkEmission (SocketTo c new) (sockets_in s' new ∖ {[c]})
        (EvMessage (system_message (User.username u +:+ " has joined the room") t));
      mkEmission (IoTo new) (sockets_in s' new)
        (EvUsersUpdate ((λ j, users s' !! j) <$> elements (members s' new))
           (size (members s' new))) ].
Proof.
  intros Hu HR. cbn zeta.
  unfold step, dispatch, emitted, final, after_leave; cbn [ev sock now].
  unfold on_switch_room. rewrite !bind_users_get, Hu.
  cbn. rewrite HR. cbn.
  destruct (alter (Room.removeUser c) (User.room u) (rooms s) !! toLowerCase rm) eqn:Hn; cbn.
  - reflexivity.
  - reflexivity.
Qed.

Lemma switch_state s c t rm u R :
  users s !! c = Some u →
  rooms s !! User.room u = Some R →
  let old := User.room u in
  let new := toLowerCase rm in
  let s1 := after_leave s c old in
  let s' := step s (mkInput c t (SwitchRoom rm)) in
  sockets_in s1 old = sockets_in s old ∖ {[c]} ∧
  members s1 old = Room.users R ∖ {[c]} ∧
  (∀ c', c' ≠ c → c' ∈ sockets_in s' new ↔ c' ∈ sockets_in s new) ∧
  c ∈ sockets_in s' new ∧
  members s' new = (members s new ∖ {[c]}) ∪ {[c]} ∧
  history s' new = history s new.
Proof.
  intros Hu HR. cbn zeta. repeat split.
  - unfold sockets_in at 1, after_leave; cbn [adapter]. by rewrite lookup_insert_eq.
  - unfold members, room_members, after_leave; cbn [rooms].
    by rewrite lookup_alter_eq, HR.
  - rewrite step_sockets_in; cbn [ev sock]. rewrite Hu. naive_solver.
  - rewrite step_sockets_in; cbn [ev sock]. rewrite Hu. naive_solver.
  - rewrite step_sockets_in; cbn [ev sock]. rewrite Hu. by right.
  - apply set_eq; intros x. rewrite step_members; cbn [ev sock]. rewrite Hu.
    rewrite elem_of_union, elem_of_difference, elem_of_singleton.
    destruct (decide (x = c)); naive_solver.
  - unfold history. rewrite step_rooms; cbn [ev sock now]. rewrite Hu. cbn [ev].
    rewrite history_alter_users by (by intros []).
    rewrite history_ensure_room. by rewrite history_alter_users by (by intros []).
Qed.

(** X13. What ['switch-room'] sends, for a registered socket whose old
    room exists.  The switcher is sent the stored history of the new room
    and then the new room's user list, nothing else.  Another socket is
    sent the leave notice and the old room's user list without the
    switcher if it is in the Socket.IO room of the old key, and then the
    join notice and the new room's user list if it is in the Socket.IO room
    of the new key. *)
Theorem switch_room_notifies_both_rooms (s : State) (c c' rm : string) (t : Z)
    (u : User.t) (R : Room.t) :
  users s !! c = Some u →
  rooms s !! User.room u = Some R →
  c' ≠ c →
  let old := User.room u in
  let new := toLowerCase rm in
  let i := mkInput c t (SwitchRoom rm) in
  let s' := step s i in
  let out := emitted (dispatch i s) in
  let upd_old := EvUsersUpdate ((λ j, users s !! j) <$> elements (Room.users R ∖ {[c]}))
                   (size (Room.users R ∖ {[c]})) in
  let upd_new := EvUsersUpdate ((λ j, users s' !! j) <$> elements (members s' new))
                   (size (members s' new)) in
  received c out = [ EvRoomHistory (history s new); upd_new ] ∧
  received c' out =
    (if decide (c' ∈ sockets_in s old)
     then [ EvMessage (system_message (User.username u +:+ " has left the room") t);
            upd_old ]
     else []) ++
    (if decide (c' ∈ sockets_in s new)
     then [ EvMessage (system_message (User.username u +:+ " has joined the room") t);
            upd_new ]
     else []) ∧
  members s' new = (members s new ∖ {[c]}) ∪ {[c]}.
Proof.
  intros Hu HR Hne. cbn zeta.
  rewrite (switch_emitted s c t rm u R Hu HR). cbn zeta.
  destruct (switch_state s c t rm u R Hu HR) as (Ha & Hm & Hb & Hc & Hd & He).
  cbn zeta in *. rewrite Ha, Hm, He.
  split; [|split; [|done]].
  - unfold received.
    rewrite filter_cons_False by (cbn; set_solver).
    rewrite filter_cons_False by (cbn; set_solver).
    rewrite filter_cons_True by (cbn; set_solver).
    rewrite filter_cons_False by (cbn; set_solver).
    rewrite filter_cons_True by (cbn; set_solver).
    done.
  - unfold received. pose proof (Hb c' Hne) as Hb'.
    destruct (decide (c' ∈ sockets_in s (User.room u))) as [Ho|Ho];
      destruct (decide (c' ∈ sockets_in s (toLowerCase rm))) as [Hn|Hn].
    + rewrite filter_cons_True by (cbn; set_solver).
      rewrite filter_cons_True by (cbn; set_solver).
      rewrite filter_cons_False by (cbn; set_solver).
      rewrite filter_cons_True by (cbn; set_solver).
      rewrite filter_cons_True by (cbn; set_solver).
      done.
    + rewrite filter_cons_True by (cbn; set_solver).
      rewrite filter_cons_True by (cbn; set_solver).
      rewrite filter_cons_False by (cbn; set_solver).
      rewrite filter_cons_False by (cbn; set_solver).
      rewrite filter_cons_False by (cbn; set_solver).
      done.
    + rewrite filter_cons_False by (cbn; set_solver).
      rewrite filter_cons_False by (cbn; set_solver).
      rewrite filter_cons_False by (cbn; set_solver).
      rewrite filter_cons_True by (cbn; set_solver).
      rewrite filter_cons_True by (cbn; set_solver).
      done.
    + rewrite filter_cons_False by (cbn; set_solver).
      rewrite filter_cons_False by (cbn; set_solver).
      rewrite filter_cons_False by (cbn; set_solver).
      rewrite filter_cons_False by (cbn; set_solver).
      rewrite filter_cons_False by (cbn; set_solver).
      done.
Qed.

(** ** The statistics endpoints *)




(** * Properties of the REST API demo *)

(** ** Finding a record by id in a list with distinct ids *)

Section by_key.
Context {A : Type} (key : A → Z).

Lemma key_inj_on (l : list A) (x y : A) :
  NoDup (key <$> l) → x ∈ l → y ∈ l → key x = key y → x = y.
Proof.
  intros Hnd [i Hi]%list_elem_of_lookup [j Hj]%list_elem_of_lookup Hk.
  assert (i = j) as ->; [|congruence].
  eapply (NoDup_lookup _ _ _ (key x) Hnd); rewrite list_lookup_fmap.
  - by rewrite Hi.
  - by rewrite Hj, Hk.
Qed.

Lemma find_key_Some (l : list A) (n : Z) (x : A) :
  NoDup (key <$> l) →
  (∃ i, list_find (λ a, key a = n) l = Some (i, x)) ↔ x ∈ l ∧ key x = n.
Proof.
  intros Hnd. split.
  - intros [i Hi]. apply list_find_Some in Hi as (Hl & Hk & _).
    split; [|done]. apply list_elem_of_lookup. by eauto.
  - intros [Hx Hk].
    destruct (list_find_elem_of (λ a, key a = n) l x Hx Hk) as [[i y] Hy].
    exists i. rewrite Hy. f_equal. f_equal.
    apply list_find_Some in Hy as (Hl & Hk' & _).
    apply (key_inj_on l); [done| |done|congruence].
    apply list_elem_of_lookup. by eauto.
Qed.

Lemma find_key_None (l : list A) (n : Z) :
  list_find (λ a, key a = n) l = None ↔ ∀ x, x ∈ l → key x ≠ n.
Proof. rewrite list_find_None, Forall_forall. done. Qed.

Lemma elem_of_delete_NoDup (l : list A) (i : nat) (y x : A) :
  NoDup (key <$> l) → l !! i = Some y →
  x ∈ delete i l ↔ x ∈ l ∧ key x ≠ key y.
Proof.
  intros Hnd Hi.
  rewrite <- (take_drop_middle l i y Hi) in Hnd.
  rewrite delete_take_drop.
  rewrite <- (take_drop_middle l i y Hi) at 3.
  rewrite fmap_app, fmap_cons in Hnd.
  apply NoDup_app in Hnd as (_ & Hdisj & Hnd2).
  apply NoDup_cons in Hnd2 as [Hy _].
  rewrite !elem_of_app, elem_of_cons. split.
  - intros [Hx|Hx].
    + split; [by left|]. intros Hk. apply (Hdisj (key x)).
      * apply list_elem_of_fmap. by eauto.
      * rewrite Hk. by left.
    + split; [by right; right|]. intros Hk. apply Hy. rewrite <- Hk.
      apply list_elem_of_fmap. by eauto.
  - intros [[Hx|[->|Hx]] Hk]; [by left|done|by right].
Qed.

End by_key.

(** ** Ids stay distinct *)

Lemma rest_init_ids_fresh t0 : Rest.ids_fresh (Rest.init t0).
Proof.
  unfold Rest.ids_fresh, Rest.init; cbn.
  split; [|split; [|split]].
  - refine (bool_decide_unpack _ _). by vm_compute.
  - repeat constructor; cbn; lia.
  - refine (bool_decide_unpack _ _). by vm_compute.
  - repeat constructor; cbn; lia.
Qed.

Lemma rest_handle_ids_fresh now r db :
  Rest.ids_fresh db → Rest.ids_fresh (Rest.handle now r db).1.
Proof.
  intros (Hu & Hub & Hp & Hpb). unfold Rest.ids_fresh.
  destruct r; cbn [Rest.handle fst]; try done.
  - (* POST /api/users *)
    unfold Rest.create_user. case_match; [done|]. cbn [fst Rest.users Rest.posts Rest.nextUserId Rest.nextPostId].
    split; [|split; [|split; [done|done]]].
    + rewrite fmap_app. apply NoDup_app. split; [done|]. split; [|apply NoDup_singleton].
      intros x Hx Hx'. apply list_elem_of_singleton in Hx'. subst x.
      apply list_elem_of_fmap in Hx as (u & Hu' & Hin).
      rewrite Forall_forall in Hub. specialize (Hub u Hin). cbn in *. lia.
    + apply Forall_app. split.
      * eapply Forall_impl; [exact Hub|]. cbn. intros; lia.
      * repeat constructor. cbn. lia.
  - (* PUT /api/users/:id *)
    unfold Rest.update_user, Rest.find_user. destruct id as [n|]; [|done].
    destruct (list_find _ _) as [[i old]|] eqn:Hf; [|done].
    cbn [fst Rest.users Rest.posts Rest.nextUserId Rest.nextPostId].
    apply list_find_Some in Hf as (Hi & _ & _).
    split; [|split; [|split; [done|done]]].
    + rewrite list_fmap_insert. cbn.
      rewrite list_insert_id; [done|]. by rewrite list_lookup_fmap, Hi.
    + apply Forall_insert; [done|]. cbn.
      rewrite Forall_forall in Hub. apply Hub. apply list_elem_of_lookup. by eauto.
  - (* DELETE /api/users/:id *)
    unfold Rest.delete_user, Rest.find_user. destruct id as [n|]; [|done].
    destruct (list_find _ _) as [[i old]|] eqn:Hf; [|done].
    cbn [fst Rest.users Rest.posts Rest.nextUserId Rest.nextPostId].
    split; [|split; [|split; [done|done]]].
    + rewrite list_fmap_delete. eapply sublist_NoDup; [exact Hu|apply sublist_delete].
    + by apply Forall_delete.
  - (* POST /api/posts *)
    unfold Rest.create_post. destruct userId as [|[n|]]; [done| |by case_match].
    case_match; [done|]. destruct (Rest.find_user _ _); [|done].
    cbn [fst Rest.users Rest.posts Rest.nextUserId Rest.nextPostId].
    split; [done|split; [done|split]].
    + rewrite fmap_app. apply NoDup_app. split; [done|]. split; [|apply NoDup_singleton].
      intros x Hx Hx'. apply list_elem_of_singleton in Hx'. subst x.
      apply list_elem_of_fmap in Hx as (q & Hq & Hin).
      rewrite Forall_forall in Hpb. specialize (Hpb q Hin). cbn in *. lia.
    + apply Forall_app. split.
      * eapply Forall_impl; [exact Hpb|]. cbn. intros; lia.
      * repeat constructor. cbn. lia.
  - (* PUT /api/posts/:id *)
    unfold Rest.update_post, Rest.find_post. destruct id as [n|]; [|done].
    destruct (list_find _ _) as [[i old]|] eqn:Hf; [|done].
    cbn [fst Rest.users Rest.posts Rest.nextUserId Rest.nextPostId].
    apply list_find_Some in Hf as (Hi & _ & _).
    split; [done|split; [done|split]].
    + rewrite list_fmap_insert. cbn.
      rewrite list_insert_id; [done|]. by rewrite list_lookup_fmap, Hi.
    + apply Forall_insert; [done|]. cbn.
      rewrite Forall_forall in Hpb. apply Hpb. apply list_elem_of_lookup. by eauto.
  - (* DELETE /api/posts/:id *)
    unfold Rest.delete_post, Rest.find_post. destruct id as [n|]; [|done].
    destruct (list_find _ _) as [[i old]|] eqn:Hf; [|done].
    cbn [fst Rest.users Rest.posts Rest.nextUserId Rest.nextPostId].
    split; [done|split; [done|split]].
    + rewrite list_fmap_delete. eapply sublist_NoDup; [exact Hp|apply sublist_delete].
    + by apply Forall_delete.
Qed.

Lemma rest_serve_ids_fresh reqs : ∀ db,
  Rest.ids_fresh db → Rest.ids_fresh (Rest.serve db reqs).
Proof.
  induction reqs as [|[now r] l IH]; intros db Hdb; [done|].
  cbn. apply IH. by apply rest_handle_ids_fresh.
Qed.

Lemma rest_reachable_ids_fresh db : Rest.reachable db → Rest.ids_fresh db.
Proof. intros (t0 & reqs & ->). apply rest_serve_ids_fresh, rest_init_ids_fresh. Qed.

Lemma rest_reachable_handle now r db :
  Rest.reachable db → Rest.reachable (Rest.handle now r db).1.
Proof.
  intros (t0 & reqs & ->). exists t0, (reqs ++ [(now, r)]).
  unfold Rest.serve. by rewrite foldl_app.
Qed.

(** One request moves a counter by one exactly when it creates a record,
    and the record gets the old value of the counter as id. *)
Lemma rest_handle_user_counter now r db :
  match r, Rest.body (Rest.handle now r db).2 with
  | Rest.CreateUser _ _ _, Rest.BUser u =>
      Rest.u_id u = Rest.nextUserId db ∧
      Rest.nextUserId (Rest.handle now r db).1 = (Rest.nextUserId db + 1)%Z
  | _, _ => Rest.nextUserId (Rest.handle now r db).1 = Rest.nextUserId db
  end.
Proof.
  destruct r; cbn [Rest.handle fst snd Rest.body]; try done.
  - unfold Rest.create_user. by destruct (_ || _).
  - unfold Rest.update_user. by destruct (Rest.find_user _ _) as [[? ?]|].
  - unfold Rest.delete_user. by destruct (Rest.find_user _ _) as [[? ?]|].
  - unfold Rest.create_post. destruct userId as [|[n|]]; [done| |by destruct (_ || _)].
    destruct (_ || _); [done|]. by destruct (Rest.find_user _ _).
  - unfold Rest.update_post. by destruct (Rest.find_post _ _) as [[? ?]|].
  - unfold Rest.delete_post. by destruct (Rest.find_post _ _) as [[? ?]|].
Qed.

Lemma rest_handle_post_counter now r db :
  match r, Rest.body (Rest.handle now r db).2 with
  | Rest.CreatePost _ _ _, Rest.BPost q =>
      Rest.p_id q = Rest.nextPostId db ∧
      Rest.nextPostId (Rest.handle now r db).1 = (Rest.nextPostId db + 1)%Z
  | _, _ => Rest.nextPostId (Rest.handle now r db).1 = Rest.nextPostId db
  end.
Proof.
  destruct r; cbn [Rest.handle fst snd Rest.body]; try done.
  - unfold Rest.create_user. by destruct (_ || _).
  - unfold Rest.update_user. by destruct (Rest.find_user _ _) as [[? ?]|].
  - unfold Rest.delete_user. by destruct (Rest.find_user _ _) as [[? ?]|].
  - unfold Rest.create_post. destruct userId as [|[n|]]; [done| |by destruct (_ || _)].
    destruct (_ || _); [done|]. by destruct (Rest.find_user _ _).
  - unfold Rest.update_post. by destruct (Rest.find_post _ _) as [[? ?]|].
  - unfold Rest.delete_post. by destruct (Rest.find_post _ _) as [[? ?]|].
Qed.

Lemma rest_serve_cons db r reqs :
  Rest.serve db (r :: reqs) = Rest.serve (Rest.handle r.1 r.2 db).1 reqs.
Proof. done. Qed.

Lemma rest_user_ids_given reqs : ∀ db,
  (Rest.nextUserId db ≤ Rest.nextUserId (Rest.serve db reqs))%Z ∧
  StronglySorted Z.lt (user_ids_given db reqs) ∧
  Forall (λ n, (Rest.nextUserId db ≤ n < Rest.nextUserId (Rest.serve db reqs))%Z)
    (user_ids_given db reqs).
Proof.
  induction reqs as [|[now r] l IH]; intros db.
  - cbn. split; [lia|]. split; constructor.
  - rewrite rest_serve_cons. cbn [user_ids_given fst snd].
    pose proof (rest_handle_user_counter now r db) as Hstep.
    destruct (IH (Rest.handle now r db).1) as (Hle & Hsorted & Hbound).
    assert (Hweak : (Rest.nextUserId db ≤ Rest.nextUserId (Rest.handle now r db).1)%Z →
      Forall (λ n, (Rest.nextUserId db ≤ n <
                    Rest.nextUserId (Rest.serve (Rest.handle now r db).1 l))%Z)
        (user_ids_given (Rest.handle now r db).1 l)).
    { intros ?. eapply Forall_impl; [exact Hbound|]. cbn. intros; lia. }
    destruct r; try (rewrite Hstep in *; split; [lia|split; [done|apply Hweak; lia]]).
    destruct (Rest.body _) as [| | |u| | | | |];
      try (rewrite Hstep in *; split; [lia|split; [done|apply Hweak; lia]]).
    destruct Hstep as [Hid Hnext]. rewrite Hnext in *. split; [lia|]. split.
    + constructor; [done|]. eapply Forall_impl; [exact Hbound|]. cbn. intros; lia.
    + constructor; [lia|]. apply Hweak. lia.
Qed.

Lemma rest_post_ids_given reqs : ∀ db,
  (Rest.nextPostId db ≤ Rest.nextPostId (Rest.serve db reqs))%Z ∧
  StronglySorted Z.lt (post_ids_given db reqs) ∧
  Forall (λ n, (Rest.nextPostId db ≤ n < Rest.nextPostId (Rest.serve db reqs))%Z)
    (post_ids_given db reqs).
Proof.
  induction reqs as [|[now r] l IH]; intros db.
  - cbn. split; [lia|]. split; constructor.
  - rewrite rest_serve_cons. cbn [post_ids_given fst snd].
    pose proof (rest_handle_post_counter now r db) as Hstep.
    destruct (IH (Rest.handle now r db).1) as (Hle & Hsorted & Hbound).
    assert (Hweak : (Rest.nextPostId db ≤ Rest.nextPostId (Rest.handle now r db).1)%Z →
      Forall (λ n, (Rest.nextPostId db ≤ n <
                    Rest.nextPostId (Rest.serve (Rest.handle now r db).1 l))%Z)
        (post_ids_given (Rest.handle now r db).1 l)).
    { intros ?. eapply Forall_impl; [exact Hbound|]. cbn. intros; lia. }
    destruct r; try (rewrite Hstep in *; split; [lia|split; [done|apply Hweak; lia]]).
    destruct (Rest.body _) as [| | | | |q| | |];
      try (rewrite Hstep in *; split; [lia|split; [done|apply Hweak; lia]]).
    destruct Hstep as [Hid Hnext]. rewrite Hnext in *. split; [lia|]. split.
    + constructor; [done|]. eapply Forall_impl; [exact Hbound|]. cbn. intros; lia.
    + constructor; [lia|]. apply Hweak. lia.
Qed.

Lemma rest_reachable_serve db reqs : Rest.reachable db → Rest.reachable (Rest.serve db reqs).
Proof.
  intros (t0 & l & ->). exists t0, (l ++ reqs). unfold Rest.serve. by rewrite foldl_app.
Qed.

(** X15. Ids are never handed out twice, not even after deletions.  In
    every store reachable from start-up, user ids are pairwise distinct and
    smaller than [nextUserId], post ids are pairwise distinct and smaller
    than [nextPostId].  While any further requests are served the two
    counters never go back, the ids given to new users are strictly
    increasing and lie between the old and the new value of [nextUserId],
    so each of them differs from every id that was in the store before,
    whether or not its user has been deleted in between; and likewise for
    posts. *)
Theorem rest_ids_stay_distinct (db : Rest.Db) (reqs : list (Z * Rest.Request)) :
  Rest.reachable db →
  let db' := Rest.serve db reqs in
  (NoDup (Rest.u_id <$> Rest.users db') ∧
   Forall (λ u, (Rest.u_id u < Rest.nextUserId db')%Z) (Rest.users db') ∧
   NoDup (Rest.p_id <$> Rest.posts db') ∧
   Forall (λ p, (Rest.p_id p < Rest.nextPostId db')%Z) (Rest.posts db')) ∧
  ((Rest.nextUserId db ≤ Rest.nextUserId db')%Z ∧
   StronglySorted Z.lt (user_ids_given db reqs) ∧
   Forall (λ n, (Rest.nextUserId db ≤ n < Rest.nextUserId db')%Z) (user_ids_given db reqs) ∧
   ∀ u, u ∈ Rest.users db → Rest.u_id u ∉ user_ids_given db reqs) ∧
  ((Rest.nextPostId db ≤ Rest.nextPostId db')%Z ∧
   StronglySorted Z.lt (post_ids_given db reqs) ∧
   Forall (λ n, (Rest.nextPostId db ≤ n < Rest.nextPostId db')%Z) (post_ids_given db reqs) ∧
   ∀ p, p ∈ Rest.posts db → Rest.p_id p ∉ post_ids_given db reqs).
Proof.
  intros Hreach. cbn zeta.
  pose proof (rest_reachable_ids_fresh db Hreach) as (_ & Hub & _ & Hpb).
  destruct (rest_user_ids_given reqs db) as (Hule & Hus & Huf).
  destruct (rest_post_ids_given reqs db) as (Hple & Hps & Hpf).
  split; [|split].
  - by apply rest_reachable_ids_fresh, rest_reachable_serve.
  - split; [done|]. split; [done|]. split; [done|].
    intros u Hu Hin. rewrite Forall_forall in Hub. rewrite Forall_forall in Huf.
    specialize (Hub u Hu). specialize (Huf _ Hin). cbn in *. lia.
  - split; [done|]. split; [done|]. split; [done|].
    intros p Hp Hin. rewrite Forall_forall in Hpb. rewrite Forall_forall in Hpf.
    specialize (Hpb p Hp). specialize (Hpf _ Hin). cbn in *. lia.
Qed.

(** ** Looking a user up by id *)

Lemma rest_get_user_found db n u :
  NoDup (Rest.u_id <$> Rest.users db) →
  Rest.get_user (Some n) db = Rest.mkResponse 200 (Rest.BUser u) ↔
  u ∈ Rest.users db ∧ Rest.u_id u = n.
Proof.
  intros Hnd. rewrite <- (find_key_Some Rest.u_id _ n u Hnd).
  unfold Rest.get_user, Rest.find_user. split.
  - destruct (list_find _ _) as [[i v]|]; [|done]. intros [= ->]. by eauto.
  - intros [i ->]. done.
Qed.

Lemma rest_get_user_missing db n :
  Rest.get_user (Some n) db = Rest.mkResponse 404 (Rest.BError "User not found") ↔
  ∀ u, u ∈ Rest.users db → Rest.u_id u ≠ n.
Proof.
  rewrite <- (find_key_None Rest.u_id).
  unfold Rest.get_user, Rest.find_user. split.
  - by destruct (list_find _ _) as [[i v]|].
  - by intros ->.
Qed.

(** With distinct ids, the answer for [n] depends only on which users
    with that id are present. *)
Lemma rest_get_user_ext db1 db2 n :
  NoDup (Rest.u_id <$> Rest.users db1) →
  NoDup (Rest.u_id <$> Rest.users db2) →
  (∀ u, Rest.u_id u = n → u ∈ Rest.users db1 ↔ u ∈ Rest.users db2) →
  Rest.get_user (Some n) db1 = Rest.get_user (Some n) db2.
Proof.
  intros H1 H2 Hiff.
  destruct (Rest.find_user (Some n) (Rest.users db2)) as [[i u]|] eqn:Hf.
  - assert (Hg : Rest.get_user (Some n) db2 = Rest.mkResponse 200 (Rest.BUser u))
      by (unfold Rest.get_user; by rewrite Hf).
    rewrite Hg. apply rest_get_user_found; [done|].
    apply rest_get_user_found in Hg as [Hin Hid]; [|done]. split; [|done].
    by apply Hiff.
  - assert (Hg : Rest.get_user (Some n) db2 =
                 Rest.mkResponse 404 (Rest.BError "User not found"))
      by (unfold Rest.get_user; by rewrite Hf).
    rewrite Hg. apply rest_get_user_missing. intros u Hu Hid.
    rewrite rest_get_user_missing in Hg. apply (Hg u); [|done]. by apply Hiff.
Qed.

(** ** Creating a user *)

(** X16. [POST /api/users] on a reachable store.  When [name] or [email]
    is missing or empty the answer is 400 and the store is unchanged, no id
    being used up.  Otherwise the answer is 201 with the new user, whose id
    is the old [nextUserId] and whose role defaults to ['user']; that id was
    not in use before, the user is appended, a following [GET] of that id
    returns it, and the answer for every other id is as before. *)
Theorem rest_create_user (db : Rest.Db) (name email role : option string) :
  Rest.reachable db →
  let r := Rest.create_user name email role db in
  if Rest.truthy name && Rest.truthy email
  then
    let u := Rest.mkUser (Rest.nextUserId db) (default "" name) (default "" email)
               (Rest.or_else role "user") in
    r.2 = Rest.mkResponse 201 (Rest.BUser u) ∧
    Rest.users r.1 = Rest.users db ++ [u] ∧
    Rest.posts r.1 = Rest.posts db ∧
    Rest.nextUserId r.1 = (Rest.nextUserId db + 1)%Z ∧
    Rest.get_user (Some (Rest.nextUserId db)) db =
      Rest.mkResponse 404 (Rest.BError "User not found") ∧
    Rest.get_user (Some (Rest.nextUserId db)) r.1 = Rest.mkResponse 200 (Rest.BUser u) ∧
    ∀ n, n ≠ Rest.nextUserId db →
      Rest.get_user (Some n) r.1 = Rest.get_user (Some n) db
  else r = (db, Rest.mkResponse 400 (Rest.BError "Name and email are required")).
Proof.
  intros Hreach. cbn zeta.
  pose proof (rest_reachable_ids_fresh db Hreach) as (Hnd & Hlt & _ & _).
  pose proof (rest_reachable_ids_fresh _
    (rest_reachable_handle 0%Z (Rest.CreateUser name email role) db Hreach))
    as (Hnd' & _ & _ & _).
  cbn [Rest.handle] in Hnd'. revert Hnd'. unfold Rest.create_user.
  destruct (Rest.truthy name), (Rest.truthy email); cbn; try done.
  intros Hnd'.
  assert (Hfree : ∀ u, u ∈ Rest.users db → Rest.u_id u ≠ Rest.nextUserId db).
  { intros u Hu. rewrite Forall_forall in Hlt. specialize (Hlt u Hu). lia. }
  repeat split.
  - by apply rest_get_user_missing.
  - apply rest_get_user_found; [done|]. cbn. split; [|done].
    apply elem_of_app. right. by apply list_elem_of_singleton.
  - intros n Hn. apply rest_get_user_ext; [done|done|]. cbn.
    intros u Hu. rewrite elem_of_app, list_elem_of_singleton. split; [|by left].
    intros [Hin| ->]; [done|]. cbn in Hu. congruence.
Qed.

(** ** Deleting and updating a user *)

(** X17. [DELETE /api/users/:id] on a reachable store.  For an unknown id
    (or one that is not a number) the answer is 404 and the store is
    unchanged.  For a known id the answer is 204, exactly one user is
    removed, a following [GET] of that id and of its posts gives 404, the
    answer for every other id is as before, and the posts array is
    untouched: the posts of the deleted user stay in the store. *)
Theorem rest_delete_user (db : Rest.Db) (id : option Z) :
  Rest.reachable db →
  let r := Rest.delete_user id db in
  match Rest.find_user id (Rest.users db) with
  | Some (_, u) =>
      r.2 = Rest.mkResponse 204 Rest.BNone ∧
      Rest.get_user id r.1 = Rest.mkResponse 404 (Rest.BError "User not found") ∧
      Rest.get_user_posts id r.1 = Rest.mkResponse 404 (Rest.BError "User not found") ∧
      (∀ m, Some m ≠ id → Rest.get_user (Some m) r.1 = Rest.get_user (Some m) db) ∧
      S (length (Rest.users r.1)) = length (Rest.users db) ∧
      Rest.posts r.1 = Rest.posts db ∧
      Rest.nextUserId r.1 = Rest.nextUserId db
  | None => r = (db, Rest.mkResponse 404 (Rest.BError "User not found"))
  end.
Proof.
  intros Hreach. cbn zeta.
  pose proof (rest_reachable_ids_fresh db Hreach) as (Hnd & _ & _ & _).
  pose proof (rest_reachable_ids_fresh _
    (rest_reachable_handle 0%Z (Rest.DeleteUser id) db Hreach)) as (Hnd' & _ & _ & _).
  cbn [Rest.handle] in Hnd'. revert Hnd'. unfold Rest.delete_user.
  destruct (Rest.find_user id (Rest.users db)) as [[i u]|] eqn:Hf; [|done].
  cbn [fst snd Rest.users Rest.posts Rest.nextUserId]. intros Hnd'.
  destruct id as [n|]; [|done]. cbn in Hf.
  apply list_find_Some in Hf as (Hi & Hid & _).
  assert (Hgone : ∀ v, v ∈ delete i (Rest.users db) → Rest.u_id v ≠ n).
  { intros v Hv. apply (elem_of_delete_NoDup Rest.u_id _ _ u) in Hv; [|done|done].
    destruct Hv as [_ Hv]. congruence. }
  assert (Hmiss : Rest.find_user (Some n) (delete i (Rest.users db)) = None).
  { cbn. by apply (find_key_None Rest.u_id). }
  split; [done|]. split; [|split; [|split; [|split; [|done]]]].
  - unfold Rest.get_user; cbn [Rest.users]. by rewrite Hmiss.
  - unfold Rest.get_user_posts; cbn [Rest.users]. by rewrite Hmiss.
  - intros m Hm. apply rest_get_user_ext; [done|done|]. cbn [Rest.users].
    intros v Hv. rewrite (elem_of_delete_NoDup Rest.u_id _ _ u) by done.
    split; [by intros [? _]|]. intros Hin. split; [done|]. congruence.
  - rewrite length_delete by (by eexists).
    apply lookup_lt_Some in Hi. lia.
Qed.


(** ** Creating a post *)

Lemma rest_get_post_found db n p :
  NoDup (Rest.p_id <$> Rest.posts db) →
  Rest.get_post (Some n) db = Rest.mkResponse 200 (Rest.BPost p) ↔
  p ∈ Rest.posts db ∧ Rest.p_id p = n.
Proof.
  intros Hnd. rewrite <- (find_key_Some Rest.p_id _ n p Hnd).
  unfold Rest.get_post, Rest.find_post. split.
  - destruct (list_find _ _) as [[i v]|]; [|done]. intros [= ->]. by eauto.
  - intros [i ->]. done.
Qed.

Lemma rest_get_post_missing db n :
  Rest.get_post (Some n) db = Rest.mkResponse 404 (Rest.BError "Post not found") ↔
  ∀ p, p ∈ Rest.posts db → Rest.p_id p ≠ n.
Proof.
  rewrite <- (find_key_None Rest.p_id).
  unfold Rest.get_post, Rest.find_post. split.
  - by destruct (list_find _ _) as [[i v]|].
  - by intros ->.
Qed.

(** X19. [POST /api/posts] on a reachable store.  When [userId] is falsy
    (missing, [0], empty), or [title] or [content] is missing or empty, the
    answer is 400 and the store is unchanged; so it is when [parseInt] of
    the [userId] is not the id of a user.  Otherwise the answer is 201 with
    the new post: its id is the old [nextPostId], which was not in use, its
    [userId] is the parsed number, the id of an existing user, it is
    appended, a following [GET] of that id returns it, and the users are
    untouched. *)
Theorem rest_create_post (db : Rest.Db) (now : Z) (userId : Rest.IntArg)
    (title content : option string) :
  Rest.reachable db →
  let r := Rest.create_post now userId title content db in
  match userId with
  | Rest.Truthy parsed =>
      if Rest.truthy title && Rest.truthy content
      then
        match Rest.find_user parsed (Rest.users db) with
        | Some (_, author) =>
            let p := Rest.mkPost (Rest.nextPostId db) (Rest.u_id author)
                       (default "" title) (default "" content) now None in
            parsed = Some (Rest.u_id author) ∧
            r.2 = Rest.mkResponse 201 (Rest.BPost p) ∧
            author ∈ Rest.users db ∧
            Rest.posts r.1 = Rest.posts db ++ [p] ∧
            Rest.users r.1 = Rest.users db ∧
            Rest.nextPostId r.1 = (Rest.nextPostId db + 1)%Z ∧
            Rest.get_post (Some (Rest.nextPostId db)) db =
              Rest.mkResponse 404 (Rest.BError "Post not found") ∧
            Rest.get_post (Some (Rest.nextPostId db)) r.1 =
              Rest.mkResponse 200 (Rest.BPost p)
        | None => r = (db, Rest.mkResponse 400 (Rest.BError "Invalid userId"))
        end
      else
        r = (db, Rest.mkResponse 400 (Rest.BError "userId, title, and content are required"))
  | Rest.Falsy =>
      r = (db, Rest.mkResponse 400 (Rest.BError "userId, title, and content are required"))
  end.
Proof.
  intros Hreach. cbn zeta.
  pose proof (rest_reachable_ids_fresh db Hreach) as (_ & _ & Hnd & Hlt).
  pose proof (rest_reachable_ids_fresh _
    (rest_reachable_handle now (Rest.CreatePost userId title content) db Hreach))
    as (_ & _ & Hnd' & _).
  cbn [Rest.handle] in Hnd'. revert Hnd'. unfold Rest.create_post.
  destruct userId as [|parsed]; [done|].
  destruct (Rest.truthy title), (Rest.truthy content);
    cbn [negb orb andb]; try done.
  destruct parsed as [n|]; [|done].
  destruct (Rest.find_user (Some n) (Rest.users db)) as [[i author]|] eqn:Hf; [|done].
  cbn [fst snd Rest.users Rest.posts Rest.nextPostId]. intros Hnd'.
  cbn in Hf. apply list_find_Some in Hf as (Hi & Hid & _).
  rewrite Hid in *.
  assert (Hfree : ∀ q, q ∈ Rest.posts db → Rest.p_id q ≠ Rest.nextPostId db).
  { intros q Hq. rewrite Forall_forall in Hlt. specialize (Hlt q Hq). lia. }
  split; [done|]. split; [done|]. split; [apply list_elem_of_lookup; by eauto|].
  split; [done|]. split; [done|]. split; [done|]. split.
  - by apply rest_get_post_missing.
  - apply rest_get_post_found; [done|]. cbn. split; [|done].
    apply elem_of_app. right. by apply list_elem_of_singleton.
Qed.

(** ** Listing users *)

(** Who is listed: the users of the store that pass the filters asked
    for. *)
Lemma rest_get_users_listed (db : Rest.Db) (role search : option string) :
  ∃ data,
    Rest.get_users role search db =
      Rest.mkResponse 200 (Rest.BUsers (length data) data) ∧
    data `sublist_of` Rest.users db ∧
    (∀ u, u ∈ data ↔
       u ∈ Rest.users db ∧
       (Rest.truthy role = true → Some (Rest.u_role u) = role) ∧
       (Rest.truthy search = true →
        ∃ q, search = Some q ∧
          (Rest.includes (toLowerCase (Rest.u_name u)) (toLowerCase q) = true ∨
           Rest.includes (toLowerCase (Rest.u_email u)) (toLowerCase q) = true))) ∧
    (Rest.truthy role || Rest.truthy search = false → data = Rest.users db) ∧
    (Rest.handle 0 (Rest.GetUsers role search) db).1 = db.
Proof.
  unfold Rest.get_users.
  destruct (Rest.truthy role) eqn:Hr, (Rest.truthy search) eqn:Hs;
    eexists; (split; [reflexivity|]).
  - destruct role as [ro|]; [|done]. destruct search as [q|]; [|done].
    cbn [default from_option id].
    split; [etrans; apply sublist_filter|]. split; [|split; done].
    intros u. rewrite !list_elem_of_filter, Is_true_true, orb_true_iff. split.
    + intros (Hq & Hro & Hu). split; [done|]. split; [by intros _; f_equal|].
      intros _. by exists q.
    + intros (Hu & Hro & Hq). specialize (Hro eq_refl). injection Hro as Hro.
      destruct (Hq eq_refl) as (q' & [= <-] & Hq'). done.
  - destruct role as [ro|]; [|done]. cbn [default from_option id].
    split; [apply sublist_filter|]. split; [|split; done].
    intros u. rewrite list_elem_of_filter. split.
    + intros (Hro & Hu). split; [done|]. split; [by intros _; f_equal|done].
    + intros (Hu & Hro & _). specialize (Hro eq_refl). by injection Hro as Hro.
  - destruct search as [q|]; [|done]. cbn [default from_option id].
    split; [apply sublist_filter|]. split; [|split; done].
    intros u. rewrite list_elem_of_filter, Is_true_true, orb_true_iff. split.
    + intros (Hq & Hu). split; [done|]. split; [done|]. intros _. by exists q.
    + intros (Hu & _ & Hq). destruct (Hq eq_refl) as (q' & [= <-] & Hq'). done.
  - split; [done|]. split; [|split; done].
    intros u. split; [by intros Hu|by intros (Hu & _)].
Qed.

Lemma string_prefix_refl (x : string) : String.prefix x x = true.
Proof. induction x as [|a x IH]; [done|]. cbn. by destruct (ascii_dec a a). Qed.

Lemma rest_includes_refl (x : string) : Rest.includes x x = true.
Proof.
  unfold Rest.includes. destruct x as [|a x]; [done|].
  cbn [index]. by rewrite string_prefix_refl.
Qed.

(** X20. [GET /api/users] answers 200 with the users of the store that
    pass the filters, in store order, and their number as [count]; the
    store is not modified.
    - The two filters are independent: the users listed for a role and a
      search text are those listed for the role alone that are also listed
      for the search text alone.
    - The search does not see letter case: two non-empty search texts
      with the same lower-case form get the same answer, and a user whose
      name or email equals the search text up to [toLowerCase] is listed
      (when it has the role asked for).
    - A missing or empty parameter does not filter: without usable
      parameters all users are listed. *)
Theorem rest_get_users_filter (db : Rest.Db) (role search : option string) :
  ∃ data data_role data_search,
    Rest.get_users role search db =
      Rest.mkResponse 200 (Rest.BUsers (length data) data) ∧
    Rest.get_users role None db =
      Rest.mkResponse 200 (Rest.BUsers (length data_role) data_role) ∧
    Rest.get_users None search db =
      Rest.mkResponse 200 (Rest.BUsers (length data_search) data_search) ∧
    data `sublist_of` Rest.users db ∧
    (∀ u, u ∈ data ↔ u ∈ data_role ∧ u ∈ data_search) ∧
    (∀ q q', search = Some q → q ≠ "" → q' ≠ "" → toLowerCase q = toLowerCase q' →
       Rest.get_users role (Some q') db = Rest.get_users role search db) ∧
    (∀ q u, search = Some q → u ∈ Rest.users db →
       (Rest.truthy role = true → Some (Rest.u_role u) = role) →
       toLowerCase q = toLowerCase (Rest.u_name u) ∨
       toLowerCase q = toLowerCase (Rest.u_email u) →
       u ∈ data) ∧
    (Rest.truthy role || Rest.truthy search = false → data = Rest.users db) ∧
    (Rest.handle 0 (Rest.GetUsers role search) db).1 = db.
Proof.
  destruct (rest_get_users_listed db role search) as (data & Hd & Hsub & Hin & Hall & Hdb).
  destruct (rest_get_users_listed db role None) as (dr & Hdr & _ & Hinr & _).
  destruct (rest_get_users_listed db None search) as (ds & Hds & _ & Hins & _).
  exists data, dr, ds.
  split; [done|]. split; [done|]. split; [done|]. split; [done|].
  split; [|split; [|split; [|split; done]]].
  - intros u. rewrite Hin, Hinr, Hins. cbn [Rest.truthy]. naive_solver.
  - intros q q' -> Hq Hq' Hlow. unfold Rest.get_users.
    assert (Ht : ∀ x, x ≠ "" → Rest.truthy (Some x) = true).
    { intros x Hx. cbn. by destruct (String.eqb_spec x ""). }
    rewrite (Ht q Hq), (Ht q' Hq'). cbn [default from_option id]. by rewrite Hlow.
  - intros q u -> Hu Hrole Hlow. apply Hin. split; [done|]. split; [done|].
    intros _. exists q. split; [done|].
    destruct Hlow as [-> | ->]; [left|right]; apply rest_includes_refl.
Qed.

(** ** Scenarios of the REST API *)

Example rest_includes_examples :
  Rest.includes "alice johnson" "john" = true ∧
  Rest.includes "alice johnson" "bob" = false ∧
  Rest.includes "abc" "" = true ∧
  Rest.includes "" "a" = false.
Proof. by vm_compute. Qed.

Example rest_search_scenario :
  Rest.get_users (Some "user") (Some "BOB") (Rest.init 0) =
    Rest.mkResponse 200
      (Rest.BUsers 1 [ Rest.mkUser 2 "Bob Smith" "bob@example.com" "user" ]).
Proof. by vm_compute. Qed.

(** A deleted user's posts stay, and a new user gets a new id. *)
Example rest_delete_scenario :
  let db := Rest.serve (Rest.init 0)
              [ (1%Z, Rest.DeleteUser (Some 2%Z));
                (2%Z, Rest.CreateUser (Some "Dan") (Some "dan@example.com") None) ] in
  Rest.u_id <$> Rest.users db = [1%Z; 3%Z; 4%Z] ∧
  Rest.get_posts (Rest.Truthy (Some 2%Z)) db =
    Rest.mkResponse 200
      (Rest.BPosts 1 [ Rest.mkPost 2 2 "Second Post" "This is the second post" 0 None ]) ∧
  Rest.get_user_posts (Some 2%Z) db = Rest.mkResponse 404 (Rest.BError "User not found").
Proof. by vm_compute. Qed.

(** The id of a deleted user is not given to the next one. *)
Example rest_ids_scenario :
  user_ids_given (Rest.init 0)
    [ (1%Z, Rest.CreateUser (Some "Dan") (Some "dan@example.com") None);
      (2%Z, Rest.DeleteUser (Some 4%Z));
      (3%Z, Rest.CreateUser (Some "Eve") None None);
      (4%Z, Rest.CreateUser (Some "Eve") (Some "eve@example.com") None) ] = [4%Z; 5%Z].
Proof. by vm_compute. Qed.

(** [parseInt] decides the author: a [userId] that parses to 1 is filed
    under user 1, one that parses to [NaN] is refused. *)
Example rest_create_post_scenario :
  (Rest.create_post 9 (Rest.Truthy (Some 1%Z)) (Some "Hi") (Some "text") (Rest.init 0)).2 =
    Rest.mkResponse 201 (Rest.BPost (Rest.mkPost 3 1 "Hi" "text" 9 None)) ∧
  (Rest.create_post 9 (Rest.Truthy None) (Some "Hi") (Some "text") (Rest.init 0)).2 =
    Rest.mkResponse 400 (Rest.BError "Invalid userId") ∧
  (Rest.create_post 9 Rest.Falsy (Some "Hi") (Some "text") (Rest.init 0)).2 =
    Rest.mkResponse 400 (Rest.BError "userId, title, and content are required").
Proof. by vm_compute. Qed.

(** ** Updating a post *)

Lemma rest_get_post_ext db1 db2 n :
  NoDup (Rest.p_id <$> Rest.posts db1) →
  NoDup (Rest.p_id <$> Rest.posts db2) →
  (∀ p, Rest.p_id p = n → p ∈ Rest.posts db1 ↔ p ∈ Rest.posts db2) →
  Rest.get_post (Some n) db1 = Rest.get_post (Some n) db2.
Proof.
  intros H1 H2 Hiff.
  destruct (Rest.find_post (Some n) (Rest.posts db2)) as [[i p]|] eqn:Hf.
  - assert (Hg : Rest.get_post (Some n) db2 = Rest.mkResponse 200 (Rest.BPost p))
      by (unfold Rest.get_post; by rewrite Hf).
    rewrite Hg. apply rest_get_post_found; [done|].
    apply rest_get_post_found in Hg as [Hin Hid]; [|done]. split; [|done].
    by apply Hiff.
  - assert (Hg : Rest.get_post (Some n) db2 =
                 Rest.mkResponse 404 (Rest.BError "Post not found"))
      by (unfold Rest.get_post; by rewrite Hf).
    rewrite Hg. apply rest_get_post_missing. intros p Hp Hid.
    rewrite rest_get_post_missing in Hg. apply (Hg p); [|done]. by apply Hiff.
Qed.


(** ** Deleting a post *)

(** X22. [DELETE /api/posts/:id] on a reachable store.  For an unknown id
    (or one that parses to [NaN]) the answer is 404 and the store is
    unchanged.  For a known id the answer is 204, exactly one post is
    removed, a following [GET] of that id gives 404, the answer for every
    other id is as before, and the users and both counters are untouched,
    so the id is not given to a later post. *)
Theorem rest_delete_post (db : Rest.Db) (id : option Z) :
  Rest.reachable db →
  let r := Rest.delete_post id db in
  match Rest.find_post id (Rest.posts db) with
  | Some (_, p) =>
      r.2 = Rest.mkResponse 204 Rest.BNone ∧
      Rest.get_post id r.1 = Rest.mkResponse 404 (Rest.BError "Post not found") ∧
      (∀ m, Some m ≠ id → Rest.get_post (Some m) r.1 = Rest.get_post (Some m) db) ∧
      S (length (Rest.posts r.1)) = length (Rest.posts db) ∧
      Rest.users r.1 = Rest.users db ∧
      Rest.nextUserId r.1 = Rest.nextUserId db ∧
      Rest.nextPostId r.1 = Rest.nextPostId db
  | None => r = (db, Rest.mkResponse 404 (Rest.BError "Post not found"))
  end.
Proof.
  intros Hreach. cbn zeta.
  pose proof (rest_reachable_ids_fresh db Hreach) as (_ & _ & Hnd & _).
  pose proof (rest_reachable_ids_fresh _
    (rest_reachable_handle 0%Z (Rest.DeletePost id) db Hreach)) as (_ & _ & Hnd' & _).
  cbn [Rest.handle] in Hnd'. revert Hnd'. unfold Rest.delete_post.
  destruct (Rest.find_post id (Rest.posts db)) as [[i p]|] eqn:Hf; [|done].
  cbn [fst snd Rest.users Rest.posts Rest.nextUserId Rest.nextPostId]. intros Hnd'.
  destruct id as [n|]; [|done]. cbn in Hf.
  apply list_find_Some in Hf as (Hi & Hid & _).
  assert (Hgone : ∀ v, v ∈ delete i (Rest.posts db) → Rest.p_id v ≠ n).
  { intros v Hv. apply (elem_of_delete_NoDup Rest.p_id _ _ p) in Hv; [|done|done].
    destruct Hv as [_ Hv]. congruence. }
  split; [done|]. split; [|split; [|split; [|done]]].
  - by apply rest_get_post_missing.
  - intros m Hm. apply rest_get_post_ext; [done|done|]. cbn [Rest.posts].
    intros v Hv. rewrite (elem_of_delete_NoDup Rest.p_id _ _ p) by done.
    split; [by intros [? _]|]. intros Hin. split; [done|]. congruence.
  - rewrite length_delete by (by eexists).
    apply lookup_lt_Some in Hi. lia.
Qed.

End properties.

(** * The properties at concrete runs

    The runs below name rooms in ASCII characters, where every engine
    agrees.  They are evaluated with an engine that has no case mapping
    outside ASCII: every other string is its own lower-case form. *)

#[export] Instance ascii_engine : Engine := λ s, s.

(** ** The chat server *)

(** C3, refuted as stated: [b] shares the room with [a] and sees [a]'s
    ['user-typing'], but the whole run delivers no ['user-stop-typing'] to
    [b]; the server sets no timer, so with no further inbound event this
    is all [b] will ever observe. *)
Lemma typing_never_expires :
  filter is_user_typing (received "b" (trace (init 0) typing_run))
    = [EvUserTyping "alice" "a"] ∧
  filter is_stop_typing (received "b" (trace (init 0) typing_run)) = [] ∧
  filter is_stop_typing (event <$> trace (init 0) typing_run) = [].
Proof. by vm_compute. Qed.

Lemma stop_typing_only_on_request_witness :
  ev (mkInput "a" 6 StopTyping) = StopTyping ∧
  ∃ u, users two_in_general !! "a" = Some u ∧
       mkEmission (SocketTo "a" "general") {["b"]} (EvUserStopTyping "a") =
       mkEmission (SocketTo "a" (User.room u))
         (sockets_in two_in_general (User.room u) ∖ {["a"]})
         (EvUserStopTyping "a").
Proof.
  apply (proj2 (stop_typing_only_on_request two_in_general "a" 6)
           (mkInput "a" 6 StopTyping)
           (mkEmission (SocketTo "a" "general") {["b"]} (EvUserStopTyping "a"))).
  - refine (bool_decide_unpack _ _). vm_compute. exact I.
  - reflexivity.
Defined.

(** C4, refuted as stated: an unjoined socket that sends ['send-message'],
    ['typing'], ['switch-room'] or ['private-message'] is delivered nothing
    at all, so in particular no error event. *)
Lemma unjoined_sender_gets_no_error :
  users one_connected !! "a" = None ∧
  Forall (λ e, received "a" (emitted (dispatch (mkInput "a" 2 e) one_connected)) = [])
    [ SendMessage "hi"; Typing; SwitchRoom "Tech"; PrivateMessage "bob" "b" "hi" ].
Proof. split; [by vm_compute|]. repeat constructor. Qed.

Lemma unjoined_events_ignored_witness :
  dispatch (mkInput "a" 2 (SwitchRoom "Tech")) one_connected = (tt, one_connected, []).
Proof.
  apply (unjoined_events_ignored one_connected (mkInput "a" 2 (SwitchRoom "Tech"))).
  - by vm_compute.
  - reflexivity.
Defined.

(** C5, refuted as stated: the target id ["ghost"] is not registered, and
    what the sender is delivered is the ordinary ['private-message'] copy of
    its own message, not an error. *)
Lemma unknown_target_is_not_reported :
  users alice_joined !! "ghost" = None ∧
  received "a"
    (emitted (dispatch (mkInput "a" 7 (PrivateMessage "bob" "ghost" "hello")) alice_joined))
  = [ EvPrivateMessage (mkPrivateMsg 7 "alice" "a" "bob" "hello" 7 type_private) ].
Proof. by vm_compute. Qed.

Lemma private_message_effect_witness :
  received "a"
    (emitted (dispatch (mkInput "a" 7 (PrivateMessage "bob" "ghost" "hello")) alice_joined))
  = [ EvPrivateMessage (mkPrivateMsg 7 "alice" "a" "bob" "hello" 7 type_private) ].
Proof.
  apply (private_message_effect alice_joined "a" 7 "bob" "ghost" "hello"
           (User.mk "a" "alice" "general" 3)).
  by vm_compute.
Defined.

(** C6, refuted as stated: socket [a] is registered, joins again, and its
    Registry entry is replaced. *)
Lemma second_join_replaces_entry :
  users alice_joined !! "a" = Some (User.mk "a" "alice" "general" 3) ∧
  users (step alice_joined (mkInput "a" 9 (Join "alice" (Some "Random")))) !! "a"
    = Some (User.mk "a" "alice" "random" 9).
Proof. by vm_compute. Qed.

Lemma join_switch_disconnect_leaves_no_residue_witness :
  let s' := exec (init 0)
              ([mkInput "a" 1 (Join "alice" (Some "Tech"))] ++
               [mkInput "b" 2 (Join "bob" (Some "Tech"))] ++
               [mkInput "a" 3 (SwitchRoom "Gaming")] ++
               [mkInput "b" 4 (SendMessage "hi")] ++
               [mkInput "a" 5 Disconnect]) in
  users s' !! "a" = None ∧
  ("a" ∉ members s' (toLowerCase (default "general" (Some "Tech")))) ∧
  ("a" ∉ members s' (toLowerCase "Gaming")).
Proof.
  apply (join_switch_disconnect_leaves_no_residue (init 0) "a" "alice"
           (Some "Tech") "Gaming" 1 3 5
           [mkInput "b" 2 (Join "bob" (Some "Tech"))]
           [mkInput "b" 4 (SendMessage "hi")]).
  - repeat constructor; cbn; discriminate.
  - repeat constructor; cbn; discriminate.
Defined.

Lemma switch_to_current_room_keeps_stores_witness :
  let s' := step alice_joined (mkInput "a" 8 (SwitchRoom "GENERAL")) in
  members s' "general" = members alice_joined "general" ∧
  history s' "general" = history alice_joined "general" ∧
  User.room <$> users s' !! "a" = Some "general" ∧
  (∀ k, k ≠ "general" → rooms s' !! k = rooms alice_joined !! k) ∧
  users s' = users alice_joined ∧ rooms s' = rooms alice_joined.
Proof.
  apply (switch_to_current_room_keeps_stores alice_joined "a" "GENERAL" 8
           (User.mk "a" "alice" "general" 3)).
  - apply alice_joined_reachable.
  - by vm_compute.
  - reflexivity.
Defined.

Lemma join_room_key_witness :
  (let s3 := exec alice_joined [ mkInput "b" 5 (Join "bob" (Some "Tech"));
                                 mkInput "c" 6 (Join "carol" (Some "tECH")) ] in
   User.room <$> users s3 !! "b" = Some (toLowerCase "Tech") ∧
   User.room <$> users s3 !! "c" = Some (toLowerCase "Tech") ∧
   "b" ∈ members s3 (toLowerCase "Tech") ∧ "c" ∈ members s3 (toLowerCase "Tech")) ∧
  (let s3 := exec alice_joined [ mkInput "b" 5 (Join "bob" (Some "Tech"));
                                 mkInput "c" 6 (Join "carol" (Some "Gaming")) ] in
   User.room <$> users s3 !! "b" = Some (toLowerCase "Tech") ∧
   User.room <$> users s3 !! "c" = Some (toLowerCase "Gaming") ∧
   User.room <$> users s3 !! "b" ≠ User.room <$> users s3 !! "c") ∧
  toLowerCase "Tech" = toLowerCase "tECH".
Proof.
  pose proof (join_room_key alice_joined "b" "bob" 5 alice_joined_reachable)
    as (_ & _ & H3 & H4).
  split; [|split].
  - apply (proj1 (H3 "Tech" "tECH" "c" "carol" 6%Z)). reflexivity.
  - apply (proj2 (H3 "Tech" "Gaming" "c" "carol" 6%Z)); discriminate.
  - apply H4; reflexivity.
Defined.

(** C8, refuted as stated: both messages get the id 10, the later id is
    not greater than the earlier one. *)
Lemma same_tick_same_id :
  created_ids (trace alice_joined same_tick) = [10%Z; 10%Z] ∧
  (Room.messages <$> rooms (exec alice_joined same_tick) !! "general") =
    Some [ mkMessage (Some 10%Z) "alice" (Some "a") "one" 10 type_user;
           mkMessage (Some 10%Z) "alice" (Some "a") "two" 10 type_user ].
Proof. by vm_compute. Qed.

Lemma message_ids_follow_clock_witness :
  created_ids (trace alice_joined same_tick) `sublist_of` (now <$> same_tick) ∧
  Sorted Z.le (created_ids (trace alice_joined same_tick)) ∧
  ∀ j x y, created_ids (trace alice_joined same_tick) !! j = Some x →
           created_ids (trace alice_joined same_tick) !! S j = Some y → (x ≤ y)%Z.
Proof.
  apply (message_ids_follow_clock alice_joined same_tick).
  cbn. repeat constructor; done.
Defined.

Lemma history_holds_user_messages_only_witness :
  let run := [ mkInput "a" 1 Connection; mkInput "b" 2 Connection;
               mkInput "a" 3 (Join "alice" None); mkInput "b" 4 (Join "bob" None);
               mkInput "a" 5 (SendMessage "hello") ] in
  let m := mkMessage (Some 5%Z) "alice" (Some "a") "hello" 5 type_user in
  length (history (exec (init 0) run) "general") ≤ MAX_HISTORY ∧
  msg_type m = type_user ∧
  ∃ l1 i l2 u, run = l1 ++ i :: l2 ∧
    ev i = SendMessage (msg_text m) ∧
    users (exec (init 0) l1) !! sock i = Some u ∧ User.room u = "general" ∧
    msg_userId m = Some (sock i) ∧ msg_user m = User.username u ∧
    msg_id m = Some (now i).
Proof.
  apply (history_holds_user_messages_only 0
           [ mkInput "a" 1 Connection; mkInput "b" 2 Connection;
             mkInput "a" 3 (Join "alice" None); mkInput "b" 4 (Join "bob" None);
             mkInput "a" 5 (SendMessage "hello") ] "general").
  refine (bool_decide_unpack _ _). by vm_compute.
Defined.

Lemma rooms_never_removed_witness :
  (∃ R', rooms (exec (init 0) typing_run) !! "tech" = Some R' ∧
         Room.name R' = Room.name (Room.new "Tech" 0) ∧
         Room.createdAt R' = Room.createdAt (Room.new "Tech" 0)) ∧
  size (rooms (init 0)) ≤ size (rooms (exec (init 0) typing_run)).
Proof.
  apply (rooms_never_removed (init 0) typing_run "tech" (Room.new "Tech" 0)).
  by vm_compute.
Defined.

Lemma registered_sockets_are_members_witness :
  User.id (User.mk "a" "alice" "general" 3) = "a" ∧
  ∃ R, rooms two_in_general !! User.room (User.mk "a" "alice" "general" 3) = Some R ∧
       "a" ∈ Room.users R.
Proof.
  apply (registered_sockets_are_members two_in_general "a").
  - apply two_in_general_reachable.
  - by vm_compute.
Defined.

Lemma rooms_agree_with_registry_without_rejoin_witness : consistent two_in_general.
Proof.
  apply (rooms_agree_with_registry_without_rejoin two_in_general).
  apply two_in_general_first_joins.
Defined.

Lemma socketio_rooms_track_membership_witness :
  ("b" ∈ sockets_in two_in_general "general" →
   "general" = "b" ∨ "b" ∈ members two_in_general "general") ∧
  (reachable_first_joins two_in_general →
   "b" ∈ members two_in_general "general" → "b" ∈ sockets_in two_in_general "general").
Proof.
  apply (socketio_rooms_track_membership two_in_general "general" "b").
  apply two_in_general_reachable.
Defined.

Lemma send_message_reaches_room_witness :
  let m := mkMessage (Some 5%Z) "alice" (Some "a") "hello" 5 type_user in
  let i := mkInput "a" 5 (SendMessage "hello") in
  let out := emitted (dispatch i two_in_general) in
  received "a" out = [EvMessage m] ∧
  (∀ c', c' ∈ members two_in_general "general" → received c' out = [EvMessage m]) ∧
  (∀ c', c' ∉ members two_in_general "general" → c' ≠ "general" → received c' out = []) ∧
  history (step two_in_general i) "general" = window (history two_in_general "general" ++ [m]).
Proof.
  apply (send_message_reaches_room two_in_general "a" "hello" 5
           (User.mk "a" "alice" "general" 3)).
  - apply two_in_general_first_joins.
  - by vm_compute.
Defined.

Lemma typing_reaches_other_members_witness :
  let out1 := emitted (dispatch (mkInput "a" 5 Typing) two_in_general) in
  let out2 := emitted (dispatch (mkInput "a" 5 StopTyping) two_in_general) in
  received "a" out1 = [] ∧ received "a" out2 = [] ∧
  ∀ c', c' ≠ "a" → c' ∈ members two_in_general "general" →
    received c' out1 = [EvUserTyping "alice" "a"] ∧
    received c' out2 = [EvUserStopTyping "a"].
Proof.
  apply (typing_reaches_other_members two_in_general "a" 5
           (User.mk "a" "alice" "general" 3)).
  - apply two_in_general_first_joins.
  - by vm_compute.
Defined.

Lemma join_is_announced_to_room_witness :
  let key := toLowerCase (default "general" (Some "General")) in
  let i := mkInput "c" 9 (Join "carol" (Some "General")) in
  let s' := step two_in_general i in
  received "b" (emitted (dispatch i two_in_general)) =
    (if decide ("b" ∈ sockets_in two_in_general key)
     then [ EvMessage (system_message ("carol" +:+ " has joined the room") 9);
            EvUsersUpdate
              ((λ j, users s' !! j) <$> elements (members two_in_general key ∪ {["c"]}))
              (size (members two_in_general key ∪ {["c"]})) ]
     else []) ∧
  (reachable_first_joins two_in_general →
   "b" ∈ members two_in_general key → "b" ∈ sockets_in two_in_general key).
Proof.
  apply (join_is_announced_to_room two_in_general "c" "b" "carol" 9 (Some "General")).
  discriminate.
Defined.

Lemma switch_room_moves_socket_witness :
  let new := toLowerCase "Tech" in
  let s' := step two_in_general (mkInput "a" 7 (SwitchRoom "Tech")) in
  users s' !! "a" = Some (User.mk "a" "alice" new 3) ∧
  "a" ∈ members s' new ∧
  ("general" ≠ new → "a" ∉ members s' "general") ∧
  (∀ c' k, c' ≠ "a" →
     users s' !! c' = users two_in_general !! c' ∧
     (c' ∈ members s' k ↔ c' ∈ members two_in_general k)) ∧
  (∀ k, history s' k = history two_in_general k) ∧
  is_Some (rooms s' !! new).
Proof.
  apply (switch_room_moves_socket two_in_general "a" "Tech" 7
           (User.mk "a" "alice" "general" 3)).
  by vm_compute.
Defined.

Lemma disconnect_unregisters_witness :
  let i := mkInput "a" 9 Disconnect in
  let s' := step two_in_general i in
  let out := emitted (dispatch i two_in_general) in
  let R := Room.mk "General" {["a"; "b"]} [] 0 in
  users s' = delete "a" (users two_in_general) ∧
  members s' "general" = members two_in_general "general" ∖ {["a"]} ∧
  (∀ k, "b" ∈ members s' k ↔ "b" ∈ members two_in_general k) ∧
  received "a" out = [] ∧
  received "b" out =
    (if decide ("b" ∈ sockets_in two_in_general "general")
     then [ EvMessage (system_message ("alice" +:+ " has left the room") 9);
            EvUsersUpdate
              ((λ j, users two_in_general !! j) <$> elements (Room.users R ∖ {["a"]}))
              (size (Room.users R ∖ {["a"]})) ]
     else []).
Proof.
  apply (disconnect_unregisters two_in_general "a" "b" 9
           (User.mk "a" "alice" "general" 3) (Room.mk "General" {["a"; "b"]} [] 0)).
  - by vm_compute.
  - by vm_compute.
  - discriminate.
Defined.

Lemma switch_room_notifies_both_rooms_witness :
  let i := mkInput "a" 7 (SwitchRoom "Tech") in
  let s' := step two_in_general i in
  let out := emitted (dispatch i two_in_general) in
  let R := Room.mk "General" {["a"; "b"]} [] 0 in
  let upd_old := EvUsersUpdate
                   ((λ j, users two_in_general !! j) <$> elements (Room.users R ∖ {["a"]}))
                   (size (Room.users R ∖ {["a"]})) in
  let upd_new := EvUsersUpdate ((λ j, users s' !! j) <$> elements (members s' "tech"))
                   (size (members s' "tech")) in
  received "a" out = [ EvRoomHistory (history two_in_general "tech"); upd_new ] ∧
  received "b" out =
    (if decide ("b" ∈ sockets_in two_in_general "general")
     then [ EvMessage (system_message ("alice" +:+ " has left the room") 7); upd_old ]
     else []) ++
    (if decide ("b" ∈ sockets_in two_in_general "tech")
     then [ EvMessage (system_message ("alice" +:+ " has joined the room") 7); upd_new ]
     else []) ∧
  members s' "tech" = (members two_in_general "tech" ∖ {["a"]}) ∪ {["a"]}.
Proof.
  apply (switch_room_notifies_both_rooms two_in_general "a" "b" "Tech" 7
           (User.mk "a" "alice" "general" 3) (Room.mk "General" {["a"; "b"]} [] 0)).
  - by vm_compute.
  - by vm_compute.
  - discriminate.
Defined.


(** ** The REST API *)

Lemma rest_ids_stay_distinct_witness :
  let reqs := [ (1%Z, Rest.DeleteUser (Some 3%Z));
                (2%Z, Rest.CreateUser (Some "Dan") (Some "dan@example.com") None);
                (3%Z, Rest.DeleteUser (Some 4%Z));
                (4%Z, Rest.CreateUser (Some "Eve") (Some "eve@example.com") None) ] in
  let db' := Rest.serve (Rest.init 0) reqs in
  (NoDup (Rest.u_id <$> Rest.users db') ∧
   Forall (λ u, (Rest.u_id u < Rest.nextUserId db')%Z) (Rest.users db') ∧
   NoDup (Rest.p_id <$> Rest.posts db') ∧
   Forall (λ p, (Rest.p_id p < Rest.nextPostId db')%Z) (Rest.posts db')) ∧
  ((Rest.nextUserId (Rest.init 0) ≤ Rest.nextUserId db')%Z ∧
   StronglySorted Z.lt (user_ids_given (Rest.init 0) reqs) ∧
   Forall (λ n, (Rest.nextUserId (Rest.init 0) ≤ n < Rest.nextUserId db')%Z)
     (user_ids_given (Rest.init 0) reqs) ∧
   ∀ u, u ∈ Rest.users (Rest.init 0) → Rest.u_id u ∉ user_ids_given (Rest.init 0) reqs) ∧
  ((Rest.nextPostId (Rest.init 0) ≤ Rest.nextPostId db')%Z ∧
   StronglySorted Z.lt (post_ids_given (Rest.init 0) reqs) ∧
   Forall (λ n, (Rest.nextPostId (Rest.init 0) ≤ n < Rest.nextPostId db')%Z)
     (post_ids_given (Rest.init 0) reqs) ∧
   ∀ p, p ∈ Rest.posts (Rest.init 0) → Rest.p_id p ∉ post_ids_given (Rest.init 0) reqs).
Proof.
  apply (rest_ids_stay_distinct (Rest.init 0)
           [ (1%Z, Rest.DeleteUser (Some 3%Z));
             (2%Z, Rest.CreateUser (Some "Dan") (Some "dan@example.com") None);
             (3%Z, Rest.DeleteUser (Some 4%Z));
             (4%Z, Rest.CreateUser (Some "Eve") (Some "eve@example.com") None) ]).
  by exists 0%Z, [].
Defined.

Lemma rest_create_user_witness :
  let r := Rest.create_user (Some "Dan") (Some "dan@example.com") None (Rest.init 0) in
  if Rest.truthy (Some "Dan") && Rest.truthy (Some "dan@example.com")
  then
    let u := Rest.mkUser (Rest.nextUserId (Rest.init 0)) (default "" (Some "Dan"))
               (default "" (Some "dan@example.com")) (Rest.or_else None "user") in
    r.2 = Rest.mkResponse 201 (Rest.BUser u) ∧
    Rest.users r.1 = Rest.users (Rest.init 0) ++ [u] ∧
    Rest.posts r.1 = Rest.posts (Rest.init 0) ∧
    Rest.nextUserId r.1 = (Rest.nextUserId (Rest.init 0) + 1)%Z ∧
    Rest.get_user (Some (Rest.nextUserId (Rest.init 0))) (Rest.init 0) =
      Rest.mkResponse 404 (Rest.BError "User not found") ∧
    Rest.get_user (Some (Rest.nextUserId (Rest.init 0))) r.1 =
      Rest.mkResponse 200 (Rest.BUser u) ∧
    ∀ n, n ≠ Rest.nextUserId (Rest.init 0) →
      Rest.get_user (Some n) r.1 = Rest.get_user (Some n) (Rest.init 0)
  else r = (Rest.init 0, Rest.mkResponse 400 (Rest.BError "Name and email are required")).
Proof.
  apply (rest_create_user (Rest.init 0) (Some "Dan") (Some "dan@example.com") None).
  by exists 0%Z, [].
Defined.

Lemma rest_delete_user_witness :
  let r := Rest.delete_user (Some 1%Z) (Rest.init 0) in
  match Rest.find_user (Some 1%Z) (Rest.users (Rest.init 0)) with
  | Some (_, u) =>
      r.2 = Rest.mkResponse 204 Rest.BNone ∧
      Rest.get_user (Some 1%Z) r.1 = Rest.mkResponse 404 (Rest.BError "User not found") ∧
      Rest.get_user_posts (Some 1%Z) r.1 =
        Rest.mkResponse 404 (Rest.BError "User not found") ∧
      (∀ m, Some m ≠ Some 1%Z →
         Rest.get_user (Some m) r.1 = Rest.get_user (Some m) (Rest.init 0)) ∧
      S (length (Rest.users r.1)) = length (Rest.users (Rest.init 0)) ∧
      Rest.posts r.1 = Rest.posts (Rest.init 0) ∧
      Rest.nextUserId r.1 = Rest.nextUserId (Rest.init 0)
  | None => r = (Rest.init 0, Rest.mkResponse 404 (Rest.BError "User not found"))
  end.
Proof.
  apply (rest_delete_user (Rest.init 0) (Some 1%Z)).
  by exists 0%Z, [].
Defined.


Lemma rest_create_post_witness :
  let r := Rest.create_post 9 (Rest.Truthy (Some 3%Z)) (Some "Hi") (Some "text")
             (Rest.init 0) in
  if Rest.truthy (Some "Hi") && Rest.truthy (Some "text")
  then
    match Rest.find_user (Some 3%Z) (Rest.users (Rest.init 0)) with
    | Some (_, author) =>
        let p := Rest.mkPost (Rest.nextPostId (Rest.init 0)) (Rest.u_id author)
                   (default "" (Some "Hi")) (default "" (Some "text")) 9 None in
        Some 3%Z = Some (Rest.u_id author) ∧
        r.2 = Rest.mkResponse 201 (Rest.BPost p) ∧
        author ∈ Rest.users (Rest.init 0) ∧
        Rest.posts r.1 = Rest.posts (Rest.init 0) ++ [p] ∧
        Rest.users r.1 = Rest.users (Rest.init 0) ∧
        Rest.nextPostId r.1 = (Rest.nextPostId (Rest.init 0) + 1)%Z ∧
        Rest.get_post (Some (Rest.nextPostId (Rest.init 0))) (Rest.init 0) =
          Rest.mkResponse 404 (Rest.BError "Post not found") ∧
        Rest.get_post (Some (Rest.nextPostId (Rest.init 0))) r.1 =
          Rest.mkResponse 200 (Rest.BPost p)
    | None => r = (Rest.init 0, Rest.mkResponse 400 (Rest.BError "Invalid userId"))
    end
  else r = (Rest.init 0,
            Rest.mkResponse 400 (Rest.BError "userId, title, and content are required")).
Proof.
  apply (rest_create_post (Rest.init 0) 9 (Rest.Truthy (Some 3%Z)) (Some "Hi") (Some "text")).
  by exists 0%Z, [].
Defined.


Lemma rest_delete_post_witness :
  let r := Rest.delete_post (Some 1%Z) (Rest.init 0) in
  match Rest.find_post (Some 1%Z) (Rest.posts (Rest.init 0)) with
  | Some (_, p) =>
      r.2 = Rest.mkResponse 204 Rest.BNone ∧
      Rest.get_post (Some 1%Z) r.1 = Rest.mkResponse 404 (Rest.BError "Post not found") ∧
      (∀ m, Some m ≠ Some 1%Z →
         Rest.get_post (Some m) r.1 = Rest.get_post (Some m) (Rest.init 0)) ∧
      S (length (Rest.posts r.1)) = length (Rest.posts (Rest.init 0)) ∧
      Rest.users r.1 = Rest.users (Rest.init 0) ∧
      Rest.nextUserId r.1 = Rest.nextUserId (Rest.init 0) ∧
      Rest.nextPostId r.1 = Rest.nextPostId (Rest.init 0)
  | None => r = (Rest.init 0, Rest.mkResponse 404 (Rest.BError "Post not found"))
  end.
Proof.
  apply (rest_delete_post (Rest.init 0) (Some 1%Z)).
  by exists 0%Z, [].
Defined.
